(** * server.js of the tank game: a shallow embedding and its properties

    The development follows [src/server/server.js]: the socket event
    handlers registered in the [connection] callback, the three periodic
    routines started with [setInterval], and [checkPing].  The state of the
    module (the quadtree, [currentClientDatas], [sockets], [scoreboardList])
    is one record threaded through every callback; exceptions are explicit.

    The collaborators that server.js requires but does not define
    (ClientData, util, QuadtreeManager, GameLogicService, config.json and
    the coercions of the JavaScript engine) are either fields of the class
    [Externals] or definitions marked as modelled from the specification.
    The [nlargest] of the heap package is embedded with the heap it is
    built on. *)

From Stdlib Require Import ZArith QArith String Ascii List Permutation Sorted.
From stdpp Require Import base gmap strings list pretty.

Close Scope Q_scope.
Open Scope string_scope.
Open Scope list_scope.

(** ** JavaScript values received from clients

    Payloads of socket events are JSON values; arithmetic on them can
    also yield NaN.  Arrays are objects whose keys are their indices.  A
    character of a string stands for one UTF-16 code unit. *)
Unset Elimination Schemes.
Inductive val :=
| VUndefined
| VNull
| VBool (b : bool)
| VNaN
| VNum (q : Q)
| VStr (s : string)
| VObj (fields : list (string * val)).
Set Elimination Schemes.

(** An object as the list of its own enumerable properties, in the order
    in which the engine enumerates them. *)
Definition obj (V : Type) := list (string * V).

Definition digit_of (c : ascii) : option N :=
  let n := N_of_ascii c in
  if ((48 <=? n) && (n <=? 57))%N then Some (n - 48)%N else None.

Fixpoint digits_value (acc : N) (s : string) : option N :=
  match s with
  | EmptyString => Some acc
  | String c s' =>
      match digit_of c with
      | Some d => digits_value (10 * acc + d)%N s'
      | None => None
      end
  end.

(** Keys that are array indices (canonical decimal numerals below 2^32 - 1)
    are enumerated first, in ascending numeric order; the other keys follow
    in the order of their creation. *)
Definition array_index (k : string) : option N :=
  match k with
  | EmptyString => None
  | String "0"%char EmptyString => Some 0%N
  | String "0"%char _ => None
  | _ =>
      match digits_value 0 k with
      | Some n => if (n <? 2 ^ 32 - 1)%N then Some n else None
      | None => None
      end
  end.

Section Objects.
Context {V : Type}.

Fixpoint obj_replace (k : string) (v : V) (o : obj V) : option (obj V) :=
  match o with
  | [] => None
  | (k', v') :: o' =>
      if String.eqb k k' then Some ((k, v) :: o')
      else option_map (cons (k', v')) (obj_replace k v o')
  end.

Fixpoint obj_insert_index (n : N) (k : string) (v : V) (o : obj V) : obj V :=
  match o with
  | [] => [(k, v)]
  | (k', v') :: o' =>
      match array_index k' with
      | Some m =>
          if (m <? n)%N then (k', v') :: obj_insert_index n k v o'
          else (k, v) :: o
      | None => (k, v) :: o
      end
  end.

(** [o[k] = v]: an existing property keeps its place. *)
Definition obj_set (k : string) (v : V) (o : obj V) : obj V :=
  match obj_replace k v o with
  | Some o' => o'
  | None =>
      match array_index k with
      | Some n => obj_insert_index n k v o
      | None => o ++ [(k, v)]
      end
  end.

Definition obj_get (k : string) (o : obj V) : option V :=
  option_map snd (List.find (fun kv => String.eqb k (fst kv)) o).

Definition obj_keys (o : obj V) : list string := map fst o.

(** [Object.assign(target, ...sources)]. *)
Definition assign (target : obj V) (sources : list (obj V)) : obj V :=
  fold_left
    (fun t src => fold_left (fun t' kv => obj_set (fst kv) (snd kv) t') src t)
    sources target.
End Objects.

Definition nullish (v : val) : bool :=
  match v with
  | VUndefined | VNull => true
  | _ => false
  end.

(** [v.k]; [None] is the TypeError raised on [undefined] and [null].  The
    keys read by server.js name no built-in property of a primitive. *)
Definition getProp (v : val) (k : string) : option val :=
  match v with
  | VUndefined | VNull => None
  | VObj fields => Some (default VUndefined (obj_get k fields))
  | _ => Some VUndefined
  end.

(** [v.k = x] in strict mode (the file starts with 'use strict'); [None]
    is the TypeError raised when [v] is not an object. *)
Definition setProp (v : val) (k : string) (x : val) : option val :=
  match v with
  | VObj fields => Some (VObj (obj_set k x fields))
  | _ => None
  end.

(** [s.substring(a, b)]: both bounds are clamped to the length and swapped
    when out of order. *)
Definition js_substring (a b : nat) (s : string) : string :=
  let a' := Nat.min a (String.length s) in
  let b' := Nat.min b (String.length s) in
  String.substring (Nat.min a' b') (Nat.max a' b' - Nat.min a' b') s.

(** ** Game objects and the quadtree *)

Record Box := { box_x : Q; box_y : Q; box_w : Q; box_h : Q }.

(** What an entity hands to the quadtree: its bounding box and the
    attribute [id] that identifies the entity. *)
Record QObj := { qbox : Box; qid : string }.

Record Bullet := { bullet_id : string; bullet_box : Box }.

Record Tank := {
  tank_id : string;
  tank_screenName : string;
  kills : Z;
  ammo : Q;
  tank_box : Box;
  bullets : list Bullet
}.

(** Modelled from the spec: [forQuadtree] of Bullet and Tank (lib/ is
    absent), section 3: "a derived bounding-box projection used by
    SpatialIndex", here the box of the entity together with its identity. *)
Definition Bullet_forQuadtree (b : Bullet) : QObj :=
  {| qbox := bullet_box b; qid := bullet_id b |}.

Definition Tank_forQuadtree (t : Tank) : QObj :=
  {| qbox := tank_box t; qid := tank_id t |}.

Definition box_eqb (a b : Box) : bool :=
  Qeq_bool (box_x a) (box_x b) && Qeq_bool (box_y a) (box_y b)
  && Qeq_bool (box_w a) (box_w b) && Qeq_bool (box_h a) (box_h b).

Definition intersects (a b : Box) : bool :=
  Qle_bool (box_x a) (box_x b + box_w b) && Qle_bool (box_x b) (box_x a + box_w a)
  && Qle_bool (box_y a) (box_y b + box_h b) && Qle_bool (box_y b) (box_y a + box_h a).

(** The second argument of [quadtree.remove]: server.js passes either
    nothing or the attribute name ['id']. *)
Inductive RemoveKey := NoKey | KeyId.

Definition Quadtree := list QObj.

Definition qt_same (key : RemoveKey) (e o : QObj) : bool :=
  match key with
  | KeyId => String.eqb (qid e) (qid o)
  | NoKey => box_eqb (qbox e) (qbox o)
  end.

(** Modelled from the spec: the quadtree returned by
    [QuadtreeManager.getQuadtree] (lib/quadtreeManager is absent), section
    4.1: insert, remove and a range query "returning every indexed entry
    whose bounding box intersects the query box"; a removal with the
    identity key locates entries by identity, one without it by
    "bounding-box equality"; "removing an entry not present is a no-op". *)
Definition qt_put (o : QObj) (q : Quadtree) : Quadtree := q ++ [o].

Definition qt_remove (o : QObj) (key : RemoveKey) (q : Quadtree) : Quadtree :=
  List.filter (fun e => negb (qt_same key e o)) q.

Definition qt_get (area : Box) (q : Quadtree) : list QObj :=
  List.filter (fun e => intersects (qbox e) area) q.

(** ** Sessions *)

Record ClientData := {
  screenName : string;
  player : val;
  ping : option Z;
  startPingTime : option Z;
  lastHeartbeat : option Z;
  position : Q * Q;
  tank : Tank
}.

Definition set_screenName (n : string) (c : ClientData) : ClientData :=
  {| screenName := n; player := player c; ping := ping c;
     startPingTime := startPingTime c; lastHeartbeat := lastHeartbeat c;
     position := position c; tank := tank c |}.

Definition set_player (p : val) (c : ClientData) : ClientData :=
  {| screenName := screenName c; player := p; ping := ping c;
     startPingTime := startPingTime c; lastHeartbeat := lastHeartbeat c;
     position := position c; tank := tank c |}.

Definition set_ping (p : option Z) (c : ClientData) : ClientData :=
  {| screenName := screenName c; player := player c; ping := p;
     startPingTime := startPingTime c; lastHeartbeat := lastHeartbeat c;
     position := position c; tank := tank c |}.

Definition set_startPingTime (t : option Z) (c : ClientData) : ClientData :=
  {| screenName := screenName c; player := player c; ping := ping c;
     startPingTime := t; lastHeartbeat := lastHeartbeat c;
     position := position c; tank := tank c |}.

Definition set_lastHeartbeat (t : option Z) (c : ClientData) : ClientData :=
  {| screenName := screenName c; player := player c; ping := ping c;
     startPingTime := startPingTime c; lastHeartbeat := t;
     position := position c; tank := tank c |}.

Record ScoreboardEntry := { entry_screenName : string; entry_kills : Z }.

(** The module-level variables of server.js.  A ClientData object is
    referred to by the socket id it was constructed with: [heap] holds the
    objects, [currentClientDatas] holds references to them, so that a
    handler's update of its [currentClientData] is seen through the array.
    A socket is named by its id. *)
Record Server := {
  heap : gmap string ClientData;
  quadtree : Quadtree;
  currentClientDatas : list string;
  sockets : gmap string string;
  scoreboardList : list ScoreboardEntry
}.

Definition set_heap (h : gmap string ClientData) (s : Server) : Server :=
  {| heap := h; quadtree := quadtree s; currentClientDatas := currentClientDatas s;
     sockets := sockets s; scoreboardList := scoreboardList s |}.

Definition set_quadtree (q : Quadtree) (s : Server) : Server :=
  {| heap := heap s; quadtree := q; currentClientDatas := currentClientDatas s;
     sockets := sockets s; scoreboardList := scoreboardList s |}.

Definition set_currentClientDatas (l : list string) (s : Server) : Server :=
  {| heap := heap s; quadtree := quadtree s; currentClientDatas := l;
     sockets := sockets s; scoreboardList := scoreboardList s |}.

Definition set_sockets (m : gmap string string) (s : Server) : Server :=
  {| heap := heap s; quadtree := quadtree s; currentClientDatas := currentClientDatas s;
     sockets := m; scoreboardList := scoreboardList s |}.

Definition set_scoreboardList (l : list ScoreboardEntry) (s : Server) : Server :=
  {| heap := heap s; quadtree := quadtree s; currentClientDatas := currentClientDatas s;
     sockets := sockets s; scoreboardList := l |}.

(** ** What server.js sends *)

(** The values of the properties of a [game_objects_update] message. *)
Inductive field :=
| FPerspective (x y : Q)
| FVisible (v : val)
| FAmmo (capacity count : Q)
| FScoreboard (l : list ScoreboardEntry).

Inductive Message :=
| Welcome (cd : ClientData) (gameWidth gameHeight : Q)
| Pingcheck
| GameObjectsUpdate (m : obj field).

(** One [socket.emit] of server.js: the socket and the message. *)
Record Emit := { emit_socket : string; emit_message : Message }.

(** A callback either runs to its end or lets a TypeError escape; both
    carry the state reached and the messages emitted until then. *)
Inductive outcome (A : Type) :=
| Done (a : A)
| Throws (a : A).
Arguments Done {A} a.
Arguments Throws {A} a.

Definition result := outcome (Server * list Emit).

Definition outcome_value {A : Type} (o : outcome A) : A :=
  match o with
  | Done a => a
  | Throws a => a
  end.

Definition completes {A : Type} (o : outcome A) : bool :=
  match o with
  | Done _ => true
  | Throws _ => false
  end.

(** ** The collaborators of server.js *)

Record Config := {
  port : Z;
  gameWidth : Q;
  gameHeight : Q;
  tankAmmoCapacity : Q;
  scoreBoardLength : nat
}.

Record QueryArea := { area_x : val; area_y : val; area_w : val; area_h : val }.

(** What server.js takes from outside: config.json, the operators [-] and
    [/] and the string coercion of the engine, the constructor of
    ClientData, GameLogicService (spawn location, world set-up and the
    per-session tick, which is handed the session, its socket and the array
    of sessions and shares the quadtree) and
    [QuadtreeManager.queryGameObjects]. *)
Class Externals := {
  config : Config;
  js_sub : val -> val -> val;
  js_div : val -> val -> val;
  js_ToString : val -> string;
  newClientData : string -> Q * Q -> ClientData;
  getSpawnLocation : Quadtree -> Q * Q;
  initializeGame : Quadtree -> Quadtree;
  gameLogicService_gameTick :
    gmap string ClientData -> Quadtree -> list string ->
    string -> option string ->
    gmap string ClientData * Quadtree * list string;
  queryGameObjects : Quadtree -> QueryArea -> obj val
}.

(** The key under which [sockets[v] = ...] stores. *)
Definition toPropertyKey `{Externals} (v : val) : string :=
  match v with
  | VStr s => s
  | _ => js_ToString v
  end.

(** Modelled from the spec: [util.findIndex] (lib/util is absent), used
    where section 4.2 "removes the Session from SessionRegistry": the
    position of the first session with the given id, [None] for -1. *)
Fixpoint findIndex (arr : list string) (id : string) : option nat :=
  match arr with
  | [] => None
  | r :: arr' =>
      if String.eqb r id then Some 0 else option_map S (findIndex arr' id)
  end.

(** ** The heap package ([require('heap')], line 51)

    The package is a dependency of the server, not a file of the
    repository.  [updateScoreboard] calls its [nlargest], which is built
    from [heapify] and [heappushpop] over a binary min-heap kept in an
    array, and ends with [result.sort(cmp).reverse()].  Arrays are lists;
    [array[i] = x] is [<[i := x]> array], and every index the loops read is
    within the array. *)

Section HeapPackage.
Context {A : Type} (cmp : A -> A -> Z).

(** The loop of [_siftdown(array, startpos, pos, cmp)]: [newitem] moves
    towards [startpos] while it is smaller than its parent, the parents
    moving down.  [pos] decreases at each round, so [pos] rounds are
    enough. *)
Fixpoint siftdown_loop (fuel : nat) (array : list A) (startpos pos : nat) (newitem : A)
  : list A :=
  match fuel with
  | O => <[pos := newitem]> array
  | S fuel' =>
      if (startpos <? pos)%nat then
        let parentpos := ((pos - 1) / 2)%nat in
        match array !! parentpos with
        | Some parent =>
            if (cmp newitem parent <? 0)%Z
            then siftdown_loop fuel' (<[pos := parent]> array) startpos parentpos newitem
            else <[pos := newitem]> array
        | None => <[pos := newitem]> array
        end
      else <[pos := newitem]> array
  end.

Definition _siftdown (array : list A) (startpos pos : nat) : list A :=
  match array !! pos with
  | Some newitem => siftdown_loop pos array startpos pos newitem
  | None => array
  end.

(** The loop of [_siftup(array, pos, cmp)]: the smaller child moves up
    until a leaf is reached (the right child when it is not greater than
    the left one); the result is the array and the position of the leaf.
    [pos] increases at each round and stays below [endpos]. *)
Fixpoint siftup_loop (fuel : nat) (array : list A) (endpos pos : nat) : list A * nat :=
  match fuel with
  | O => (array, pos)
  | S fuel' =>
      let childpos := (2 * pos + 1)%nat in
      if (childpos <? endpos)%nat then
        let rightpos := (childpos + 1)%nat in
        let childpos :=
          match array !! childpos, array !! rightpos with
          | Some lchild, Some rchild =>
              if (rightpos <? endpos)%nat && negb (cmp lchild rchild <? 0)%Z
              then rightpos else childpos
          | _, _ => childpos
          end in
        match array !! childpos with
        | Some child => siftup_loop fuel' (<[pos := child]> array) endpos childpos
        | None => (array, pos)
        end
      else (array, pos)
  end.

(** [_siftup]: the element at [pos] is put at the leaf the loop reached and
    sifted back towards [pos]. *)
Definition _siftup (array : list A) (pos : nat) : list A :=
  match array !! pos with
  | Some newitem =>
      let '(array', pos') := siftup_loop (length array) array (length array) pos in
      _siftdown (<[pos' := newitem]> array') pos pos'
  | None => array
  end.

(** [heapify]: [_siftup(array, i)] for [i] from [floor(length / 2) - 1]
    down to 0. *)
Definition heapify (array : list A) : list A :=
  fold_left _siftup (rev (seq 0 (length array / 2))) array.

(** [heappushpop(array, item)]: when the array is not empty and its first
    element is smaller than [item], [item] takes its place and is sifted.
    (The returned element is not used by [nlargest].) *)
Definition heappushpop (array : list A) (item : A) : list A :=
  match array with
  | first :: _ =>
      if (cmp first item <? 0)%Z then _siftup (<[0%nat := item]> array) 0 else array
  | [] => array
  end.

(** [Array.prototype.sort] with a comparator: ascending for [cmp], elements
    that compare equal keeping their order. *)
Fixpoint sort_insert (x : A) (sorted : list A) : list A :=
  match sorted with
  | [] => [x]
  | y :: sorted' =>
      if (cmp x y <=? 0)%Z then x :: sorted else y :: sort_insert x sorted'
  end.

Definition js_sort (array : list A) : list A :=
  fold_right sort_insert [] array.

End HeapPackage.

(** [nlargest(array, n, cmp)]: [result = array[0...n]], returned as it is
    when empty; else [heapify(result)], [heappushpop(result, elem)] for the
    elements of [array[n..]], and [result.sort(cmp).reverse()]. *)
Definition nlargest {A : Type} (array : list A) (n : nat) (cmp : A -> A -> Z) : list A :=
  match take n array with
  | [] => []
  | result => rev (js_sort cmp (fold_left (heappushpop cmp) (drop n array) (heapify cmp result)))
  end.

(** ** The socket event handlers (server.js, lines 84-182)

    The handlers of a socket exist once its [connection] callback has run;
    an event of a socket without ClientData changes nothing. *)

Section Handlers.
Context `{Externals}.

(** The [connection] callback: line 91. *)
Definition on_connection (s : Server) (sid : string) : result :=
  Done (set_heap (<[sid := newClientData sid (getSpawnLocation (quadtree s))]> (heap s)) s, []).

(** [init]: lines 102-106.  [substring] exists on strings only. *)
Definition on_init (s : Server) (sid : string) (name : val) : result :=
  match heap s !! sid with
  | None => Done (s, [])
  | Some cd =>
      match name with
      | VStr n =>
          let cd' := set_screenName (js_substring 0 10 n) cd in
          Done (set_heap (<[sid := cd']> (heap s)) s,
                [ {| emit_socket := sid;
                     emit_message := Welcome cd' (gameWidth config) (gameHeight config) |} ])
      | _ => Throws (s, [])
      end
  end.

(** [welcome_received]: lines 112-122. *)
Definition on_welcome_received (s : Server) (sid : string) (clientUpdatedData : val) : result :=
  match heap s !! sid with
  | None => Done (s, [])
  | Some cd =>
      match getProp clientUpdatedData "player", getProp clientUpdatedData "id" with
      | Some p, Some i =>
          let cd' := set_player p cd in
          Done ({| heap := <[sid := cd']> (heap s);
                   quadtree := qt_put (Tank_forQuadtree (tank cd')) (quadtree s);
                   currentClientDatas := currentClientDatas s ++ [sid];
                   sockets := <[toPropertyKey i := sid]> (sockets s);
                   scoreboardList := scoreboardList s |}, [])
      | _, _ => Throws (s, [])
      end
  end.

(** [pongcheck]: lines 128-130; [None] stands for the NaN obtained from
    an undefined start time. *)
Definition on_pongcheck (s : Server) (sid : string) (now : Z) : result :=
  match heap s !! sid with
  | None => Done (s, [])
  | Some cd =>
      let cd' := set_ping ((fun t => now - t)%Z <$> startPingTime cd) cd in
      Done (set_heap (<[sid := cd']> (heap s)) s, [])
  end.

(** The calls of [quadtree.remove] made by [disconnect], in order: lines
    144-146 for the bullets, line 151 for the tank. *)
Definition disconnect_removals (t : Tank) : list (QObj * RemoveKey) :=
  map (fun b => (Bullet_forQuadtree b, NoKey)) (bullets t)
  ++ [(Tank_forQuadtree t, KeyId)].

(** [disconnect]: lines 137-163.  The log statement of line 157 reads
    [currentClientData.player.screenName] after the splice; the query of
    line 160 is only logged. *)
Definition on_disconnect (s : Server) (sid : string) : result :=
  match heap s !! sid with
  | None => Done (s, [])
  | Some cd =>
      let q1 := fold_left (fun q b => qt_remove (Bullet_forQuadtree b) NoKey q)
                          (bullets (tank cd)) (quadtree s) in
      let q2 := qt_remove (Tank_forQuadtree (tank cd)) KeyId q1 in
      match findIndex (currentClientDatas s) sid with
      | Some playerIndex =>
          let s' := set_currentClientDatas (delete playerIndex (currentClientDatas s))
                                           (set_quadtree q2 s) in
          if nullish (player cd) then Throws (s', []) else Done (s', [])
      | None => Done (set_quadtree q2 s, [])
      end
  end.

(** [client_checkin]: lines 173-176. *)
Definition on_client_checkin (s : Server) (sid : string) (clientCheckinData : val) (now : Z) : result :=
  match heap s !! sid with
  | None => Done (s, [])
  | Some cd =>
      match setProp (player cd) "userInput" clientCheckinData with
      | Some p =>
          let cd' := set_lastHeartbeat (Some now) (set_player p cd) in
          Done (set_heap (<[sid := cd']> (heap s)) s, [])
      | None => Throws (s, [])
      end
  end.

(** [windowResized]: lines 178-181.  The first assignment throws before
    it stores anything when [player] or [data] is unusable; the second
    then cannot throw. *)
Definition on_windowResized (s : Server) (sid : string) (data : val) : result :=
  match heap s !! sid with
  | None => Done (s, [])
  | Some cd =>
      match getProp data "screenWidth", getProp data "screenHeight" with
      | Some w, Some h =>
          match setProp (player cd) "screenWidth" w with
          | Some p1 =>
              match setProp p1 "screenHeight" h with
              | Some p2 => Done (set_heap (<[sid := set_player p2 cd]> (heap s)) s, [])
              | None => Throws (s, [])
              end
          | None => Throws (s, [])
          end
      | _, _ => Throws (s, [])
      end
  end.
End Handlers.

(** ** Routines and loops (server.js, lines 192-291) *)

Inductive Routine := CheckPing | GameObjectUpdater | ClientUpdater | UpdateScoreboard.

(** The three [setInterval] calls of lines 285-291, with their periods in
    milliseconds. *)
Definition intervals : list (Routine * Q) :=
  [ (GameObjectUpdater, (1000 / 60)%Q);
    (ClientUpdater, (1000 / 40)%Q);
    (UpdateScoreboard, 500%Q) ].

Definition entry_of (t : Tank) : ScoreboardEntry :=
  {| entry_screenName := tank_screenName t; entry_kills := kills t |}.

Definition by_kills (tank1 tank2 : Tank) : Z := (kills tank1 - kills tank2)%Z.

Definition tank_of (h : gmap string ClientData) (r : string) : option Tank :=
  tank <$> h !! r.

Section Routines.
Context `{Externals}.

(** One iteration of the [forEach] of [checkPing], lines 194-195. *)
Definition checkPing_one (s : Server) (r : string) (now : Z) : result :=
  match findIndex (currentClientDatas s) r with
  | Some i =>
      match currentClientDatas s !! i with
      | Some r' =>
          let s' := set_heap (alter (set_startPingTime (Some now)) r' (heap s)) s in
          match sockets s !! r with
          | Some sock => Done (s', [ {| emit_socket := sock; emit_message := Pingcheck |} ])
          | None => Throws (s', [])
          end
      | None => Throws (s, [])
      end
  | None => Throws (s, [])
  end.

Fixpoint checkPing_loop (rs : list string) (s : Server) (out : list Emit) (now : Z) : result :=
  match rs with
  | [] => Done (s, out)
  | r :: rs' =>
      match checkPing_one s r now with
      | Done (s', o) => checkPing_loop rs' s' (out ++ o) now
      | Throws (s', o) => Throws (s', out ++ o)
      end
  end.

(** [checkPing]: lines 192-197. *)
Definition checkPing (s : Server) (now : Z) : result :=
  checkPing_loop (currentClientDatas s) s [] now.

(** [gameTick]: lines 203-205. *)
Definition gameTick (s : Server) (r : string) : Server :=
  match gameLogicService_gameTick (heap s) (quadtree s) (currentClientDatas s)
                                  r (sockets s !! r) with
  | (h, q, l) =>
      {| heap := h; quadtree := q; currentClientDatas := l;
         sockets := sockets s; scoreboardList := scoreboardList s |}
  end.

(** The loop of [gameObjectUpdater], lines 214-216: [n] is [i + 1].  A
    slot emptied by an earlier tick makes [gameTick] read the id of
    [undefined]. *)
Fixpoint gameObjectUpdater_loop (n : nat) (s : Server) : result :=
  match n with
  | O => Done (s, [])
  | S i =>
      match currentClientDatas s !! i with
      | Some r => gameObjectUpdater_loop i (gameTick s r)
      | None => Throws (s, [])
      end
  end.

Definition gameObjectUpdater (s : Server) : result :=
  gameObjectUpdater_loop (length (currentClientDatas s)) s.

(** The message built at lines 260-266 for one session. *)
Definition snapshot (s : Server) (cd : ClientData) (queryArea : QueryArea) : obj field :=
  assign []
    [ [("perspective", FPerspective (fst (position cd)) (snd (position cd)))];
      map (fun kv => (fst kv, FVisible (snd kv)))
          (queryGameObjects (quadtree s) queryArea);
      [("ammo", FAmmo (tankAmmoCapacity config) (ammo (tank cd)))];
      [("scoreboard", FScoreboard (scoreboardList s))] ].

(** One iteration of the [forEach] of [clientUpdater], lines 228-267;
    [None] is a TypeError (no [player], or no socket under the id). *)
Definition clientUpdater_one (s : Server) (r : string) : option Emit :=
  match heap s !! r with
  | None => None
  | Some cd =>
      match getProp (player cd) "screenWidth", getProp (player cd) "screenHeight" with
      | Some w, Some h =>
          let queryArea :=
            {| area_x := js_sub (VNum (fst (position cd))) (js_div w (VNum 2));
               area_y := js_sub (VNum (snd (position cd))) (js_div h (VNum 2));
               area_w := w;
               area_h := h |} in
          match sockets s !! r with
          | Some sock =>
              Some {| emit_socket := sock;
                      emit_message := GameObjectsUpdate (snapshot s cd queryArea) |}
          | None => None
          end
      | _, _ => None
      end
  end.

Fixpoint clientUpdater_loop (s : Server) (rs : list string) (out : list Emit) : result :=
  match rs with
  | [] => Done (s, out)
  | r :: rs' =>
      match clientUpdater_one s r with
      | Some e => clientUpdater_loop s rs' (out ++ [e])
      | None => Throws (s, out)
      end
  end.

(** [clientUpdater]: lines 222-269. *)
Definition clientUpdater (s : Server) : result :=
  clientUpdater_loop s (currentClientDatas s) [].

(** [updateScoreboard]: lines 271-277. *)
Definition updateScoreboard (s : Server) : result :=
  match mapM (tank_of (heap s)) (currentClientDatas s) with
  | Some tanks =>
      Done (set_scoreboardList
              (map entry_of
                   (nlargest tanks
                             (Nat.min (length (currentClientDatas s)) (scoreBoardLength config))
                             by_kills))
              s, [])
  | None => Throws (s, [])
  end.

Definition run_routine (r : Routine) (s : Server) (now : Z) : result :=
  match r with
  | CheckPing => checkPing s now
  | GameObjectUpdater => gameObjectUpdater s
  | ClientUpdater => clientUpdater s
  | UpdateScoreboard => updateScoreboard s
  end.

(** ** Executions

    What the event loop can run: a callback of a socket, or the routine
    of the [n]-th interval when its timer fires. *)
Inductive Event :=
| Connection (sid : string)
| OnInit (sid : string) (screenName : val)
| OnWelcomeReceived (sid : string) (clientUpdatedData : val)
| OnPongcheck (sid : string) (now : Z)
| OnDisconnect (sid : string)
| OnClientCheckin (sid : string) (clientCheckinData : val) (now : Z)
| OnWindowResized (sid : string) (data : val)
| Timer (n : nat) (now : Z).

Definition step (s : Server) (e : Event) : result :=
  match e with
  | Connection sid => on_connection s sid
  | OnInit sid name => on_init s sid name
  | OnWelcomeReceived sid d => on_welcome_received s sid d
  | OnPongcheck sid now => on_pongcheck s sid now
  | OnDisconnect sid => on_disconnect s sid
  | OnClientCheckin sid d now => on_client_checkin s sid d now
  | OnWindowResized sid d => on_windowResized s sid d
  | Timer n now =>
      match intervals !! n with
      | Some (r, _) => run_routine r s now
      | None => Done (s, [])
      end
  end.

(** The events run one after the other; an escaping exception ends the
    process. *)
Fixpoint run (s : Server) (out : list Emit) (evs : list Event) : result :=
  match evs with
  | [] => Done (s, out)
  | e :: evs' =>
      match step s e with
      | Done (s', o) => run s' (out ++ o) evs'
      | Throws (s', o) => Throws (s', out ++ o)
      end
  end.

(** The state after the top level of server.js has run: lines 56-70. *)
Definition server_init : Server :=
  {| heap := ∅; quadtree := initializeGame []; currentClientDatas := [];
     sockets := ∅; scoreboardList := [] |}.
End Routines.

(** The states an execution goes through, the first one included. *)
Fixpoint states `{Externals} (s : Server) (evs : list Event) : list Server :=
  s :: match evs with
       | [] => []
       | e :: evs' =>
           match step s e with
           | Done (s', _) => states s' evs'
           | Throws (s', _) => [s']
           end
       end.

(** ** The session states of section 4.2 as predicates on the server *)


(** Section 3: a live entity "has exactly one SpatialIndex entry", kept
    "synchronized with each object's new position". *)
Definition indexed_once (q : Quadtree) (o : QObj) : Prop :=
  List.filter (fun e => String.eqb (qid e) (qid o)) q = [o].

(** ACTIVE: "fully registered in SessionRegistry and SpatialIndex": the
    session holds one slot of [currentClientDatas], its tank and each of its
    bullets one entry of the quadtree. *)
Record ACTIVE (s : Server) (sid : string) (cd : ClientData) : Prop := {
  active_session : heap s !! sid = Some cd;
  active_registered : count_occ string_dec (currentClientDatas s) sid = 1;
  active_tank : indexed_once (quadtree s) (Tank_forQuadtree (tank cd));
  active_bullets :
    forall b, In b (bullets (tank cd)) ->
              indexed_once (quadtree s) (Bullet_forQuadtree b)
}.

(** CONNECTED or NAMED: the connection exists, the handshake has not been
    completed; the session is in neither structure and, never having been
    advanced, its tank has fired no bullet. *)
Record PRE_ACTIVE (s : Server) (sid : string) (cd : ClientData) : Prop := {
  pre_session : heap s !! sid = Some cd;
  pre_unregistered : ~ In sid (currentClientDatas s);
  pre_unindexed : forall e, In e (quadtree s) -> qid e <> tank_id (tank cd);
  pre_no_bullets : bullets (tank cd) = []
}.

(** The events a session can cause before its handshake completes, and its
    disconnection. *)
Definition before_ack (sid : string) (e : Event) : bool :=
  match e with
  | OnInit sid' _ | OnPongcheck sid' _ | OnDisconnect sid'
  | OnClientCheckin sid' _ _ | OnWindowResized sid' _ => String.eqb sid' sid
  | _ => false
  end.

(** The event is a firing of the timer that runs [updateScoreboard]. *)
Definition is_refresh (e : Event) : bool :=
  match e with
  | Timer n _ =>
      match intervals !! n with
      | Some (UpdateScoreboard, _) => true
      | _ => false
      end
  | _ => false
  end.

Definition is_connection (sid : string) (e : Event) : bool :=
  match e with
  | Connection sid' => String.eqb sid' sid
  | _ => false
  end.

(** The per-session tick of GameLogicService leaves the start time of the
    outstanding ping of every session as it is: section 6 has it mutate the
    "session's world object". *)
Definition gameTick_keeps_startPingTime `{Externals} : Prop :=
  forall h q l r sock h' q' l' (x : string),
    gameLogicService_gameTick h q l r sock = (h', q', l') ->
    startPingTime <$> h' !! x = startPingTime <$> h !! x.

(** The event is a handshake acknowledgement of the session. *)
Definition is_ack (sid : string) (e : Event) : bool :=
  match e with
  | OnWelcomeReceived sid' _ => String.eqb sid' sid
  | _ => false
  end.

(** Modelled from the spec: the ClientData constructor (lib/clientData is
    absent).  Section 3: a Session "owns exactly one Tank", and a Bullet
    exists once "spawned by GameLogicService"; line 91 gives the
    constructor the id of the socket.  A new tank carries that id and has
    no bullet. *)
Definition newClientData_is_fresh `{Externals} : Prop :=
  forall sid spawn,
    tank_id (tank (newClientData sid spawn)) = sid
    /\ bullets (tank (newClientData sid spawn)) = [].

(** The per-session tick of GameLogicService works on the sessions of the
    array it is handed (section 6: it "may mutate ... the session list").
    For a session that is not in the array, it leaves the ClientData as it
    is, does not add it to the array, indexes nothing under its id and
    gives its id to no other tank. *)
Definition gameTick_spares `{Externals} (sid : string) : Prop :=
  forall h q l r sock h' q' l',
    gameLogicService_gameTick h q l r sock = (h', q', l') ->
    In r l -> ~ In sid l ->
    h' !! sid = h !! sid
    /\ ~ In sid l'
    /\ ((forall e, In e q -> qid e <> sid) -> forall e, In e q' -> qid e <> sid)
    /\ ((forall x cd, h !! x = Some cd -> x <> sid -> tank_id (tank cd) <> sid) ->
        forall x cd, h' !! x = Some cd -> x <> sid -> tank_id (tank cd) <> sid).

(** The session [sid] has acknowledged no handshake: it holds no slot,
    nothing is indexed under its id, its tank (if it is connected) carries
    its id and has no bullet, and no other tank carries its id. *)
Record never_acknowledged (s : Server) (sid : string) : Prop := {
  unack_unregistered : ~ In sid (currentClientDatas s);
  unack_unindexed : forall e, In e (quadtree s) -> qid e <> sid;
  unack_tank : forall cd, heap s !! sid = Some cd ->
                          tank_id (tank cd) = sid /\ bullets (tank cd) = [];
  unack_other_tanks : forall x cd, heap s !! x = Some cd -> x <> sid ->
                                   tank_id (tank cd) <> sid
}.





(** ** A sample environment and sample executions *)

Definition sampleConfig : Config :=
  {| port := 3000; gameWidth := 5000%Q; gameHeight := 5000%Q;
     tankAmmoCapacity := 10%Q; scoreBoardLength := 10 |}.

Definition sample_sub (a b : val) : val :=
  match a, b with
  | VNum x, VNum y => VNum (x - y)%Q
  | _, _ => VNaN
  end.

Definition sample_div (a b : val) : val :=
  match a, b with
  | VNum x, VNum y => if Qeq_bool y 0 then VNaN else VNum (x / y)%Q
  | _, _ => VNaN
  end.

(** Exact on the values the examples use: strings, undefined, null,
    booleans, NaN and integers. *)
Definition sample_ToString (v : val) : string :=
  match v with
  | VUndefined => "undefined"
  | VNull => "null"
  | VBool true => "true"
  | VBool false => "false"
  | VNaN => "NaN"
  | VNum q => pretty (Qnum q)
  | VStr s => s
  | VObj _ => "[object Object]"
  end.

Definition sample_box (p : Q * Q) (side : Q) : Box :=
  {| box_x := fst p; box_y := snd p; box_w := side; box_h := side |}.

Definition sample_newClientData (sid : string) (spawn : Q * Q) : ClientData :=
  {| screenName := "";
     player := VObj [("screenWidth", VNum 0); ("screenHeight", VNum 0)];
     ping := None; startPingTime := None; lastHeartbeat := None;
     position := spawn;
     tank := {| tank_id := sid; tank_screenName := ""; kills := 0; ammo := 10%Q;
                tank_box := sample_box spawn 50%Q; bullets := [] |} |}.

Definition fire (sid : string) (cd : ClientData) : Bullet :=
  {| bullet_id := sid +:+ "#" +:+ pretty (length (bullets (tank cd)));
     bullet_box := sample_box (position cd) 5%Q |}.

Definition with_bullet (b : Bullet) (cd : ClientData) : ClientData :=
  {| screenName := screenName cd; player := player cd; ping := ping cd;
     startPingTime := startPingTime cd; lastHeartbeat := lastHeartbeat cd;
     position := position cd;
     tank := {| tank_id := tank_id (tank cd);
                tank_screenName := tank_screenName (tank cd);
                kills := kills (tank cd); ammo := (ammo (tank cd) - 1)%Q;
                tank_box := tank_box (tank cd);
                bullets := bullets (tank cd) ++ [b] |} |}.

(** A rule engine in which every tick of a session fires one bullet. *)
Definition sample_gameTick (h : gmap string ClientData) (q : Quadtree) (l : list string)
    (r : string) (sock : option string) : gmap string ClientData * Quadtree * list string :=
  match h !! r with
  | Some cd => (<[r := with_bullet (fire r cd) cd]> h, qt_put (Bullet_forQuadtree (fire r cd)) q, l)
  | None => (h, q, l)
  end.

Definition sample_queryGameObjects (q : Quadtree) (area : QueryArea) : obj val :=
  [("objects", VObj (map (fun e => (qid e, VStr (qid e))) q)); ("walls", VObj [])].

Definition sampleExternals : Externals :=
  {| config := sampleConfig;
     js_sub := sample_sub;
     js_div := sample_div;
     js_ToString := sample_ToString;
     newClientData := sample_newClientData;
     getSpawnLocation := fun _ => (100%Q, 100%Q);
     initializeGame := fun q => q;
     gameLogicService_gameTick := sample_gameTick;
     queryGameObjects := sample_queryGameObjects |}.


Definition sample_ack (sid : string) : val :=
  VObj [("id", VStr sid);
        ("player", VObj [("screenWidth", VNum 800); ("screenHeight", VNum 600)])].

Definition state_after `{Externals} (evs : list Event) : Server :=
  fst (outcome_value (run server_init [] evs)).

(** A client connects. *)
Definition sample_connected : Server :=
  @state_after sampleExternals [Connection "a"].

(** A client connects and sends [init]. *)
Definition sample_named : Server :=
  @state_after sampleExternals [Connection "a"; OnInit "a" (VStr "bob")].

(** It completes the handshake and the world advances once. *)
Definition sample_active : Server :=
  @state_after sampleExternals
    [Connection "a"; OnInit "a" (VStr "bob"); OnWelcomeReceived "a" (sample_ack "a");
     Timer 0 0].

(** Two clients complete the handshake and the world advances once. *)
Definition sample_two : Server :=
  @state_after sampleExternals
    [Connection "a"; OnInit "a" (VStr "ann"); OnWelcomeReceived "a" (sample_ack "a");
     Connection "b"; OnInit "b" (VStr "ben"); OnWelcomeReceived "b" (sample_ack "b");
     Timer 0 0].

(** A client acknowledges the handshake twice. *)
Definition sample_twice : list Event :=
  [Connection "a"; OnInit "a" (VStr "bob");
   OnWelcomeReceived "a" (sample_ack "a"); OnWelcomeReceived "a" (sample_ack "a")].

(** A client completes the handshake; another one connects and never
    acknowledges, while the timers fire, and disconnects. *)
Definition sample_unacknowledged : list Event :=
  [Connection "b"; OnInit "b" (VStr "ben"); OnWelcomeReceived "b" (sample_ack "b");
   Connection "a"; OnInit "a" (VStr "ann"); Timer 0 0; Timer 1 0; Timer 2 0;
   OnClientCheckin "a" (VStr "up") 7; Timer 0 0; OnDisconnect "a"; Timer 1 0].

Definition session_of (s : Server) (sid : string) : ClientData :=
  default (sample_newClientData sid (0%Q, 0%Q)) (heap s !! sid).

(** Five registered sessions with the kill counts 5, 3, 9, 5 and 1, and an
    environment whose scoreboard has three places. *)
Definition sample_player (name : string) (k : Z) : ClientData :=
  {| screenName := name; player := VObj [];
     ping := None; startPingTime := None; lastHeartbeat := None;
     position := (0%Q, 0%Q);
     tank := {| tank_id := name; tank_screenName := name; kills := k; ammo := 10%Q;
                tank_box := sample_box (0%Q, 0%Q) 50%Q; bullets := [] |} |}.

Definition sample_five : Server :=
  {| heap := list_to_map
               [("p1", sample_player "p1" 5); ("p2", sample_player "p2" 3);
                ("p3", sample_player "p3" 9); ("p4", sample_player "p4" 5);
                ("p5", sample_player "p5" 1)];
     quadtree := [];
     currentClientDatas := ["p1"; "p2"; "p3"; "p4"; "p5"];
     sockets := ∅;
     scoreboardList := [] |}.

Definition threePlaces : Externals :=
  {| config := {| port := 3000; gameWidth := 5000%Q; gameHeight := 5000%Q;
                  tankAmmoCapacity := 10%Q; scoreBoardLength := 3 |};
     js_sub := sample_sub;
     js_div := sample_div;
     js_ToString := sample_ToString;
     newClientData := sample_newClientData;
     getSpawnLocation := fun _ => (100%Q, 100%Q);
     initializeGame := fun q => q;
     gameLogicService_gameTick := sample_gameTick;
     queryGameObjects := sample_queryGameObjects |}.

(** Predicates on tanks used to state the order of the scoreboard. *)
Definition has_kills (k : Z) (t : Tank) : bool := (kills t =? k)%Z.

Definition at_least (a b : Tank) : Prop := (kills b <= kills a)%Z.

(** The tanks of [top] with a given kill count are the first tanks with
    that count in [tanks], in the same order (section 4.4, "ties broken by
    input order"). *)
Definition ties_in_input_order (tanks top : list Tank) : Prop :=
  forall k, exists later,
    List.filter (has_kills k) tanks = List.filter (has_kills k) top ++ later.

(** ** Invariants of the heap

    The children of position [i] are at [2 i + 1] and [2 i + 2].  An array
    is in heap order from [lo] when no element at a position from [lo] on
    has more kills than one of its children. *)
Definition child (i c : nat) : Prop := c = 2 * i + 1 \/ c = 2 * i + 2.

Definition heap_from (lo : nat) (l : list Tank) : Prop :=
  forall i c x y,
    lo <= i -> child i c -> l !! i = Some x -> l !! c = Some y ->
    (kills x <= kills y)%Z.

(** The positions below [s]: [s], its children, their children, ... *)
Inductive on_path (s : nat) : nat -> Prop :=
| on_path_here : on_path s s
| on_path_child p c : on_path s p -> child p c -> on_path s c.

(** The array while the loop of [_siftup] runs, with the element [v] that
    [_siftup] started from written at the position [p] the loop has
    reached: the order can fail only between [p] and its neighbours, and
    the parent of [p] has no more kills than the children of [p]. *)
Record sinking (s : nat) (v : Tank) (l : list Tank) (p : nat) : Prop := {
  sinking_path : on_path s p;
  sinking_at : l !! p = Some v;
  sinking_edges : forall i c x y,
    s <= i -> child i c -> i <> p -> c <> p ->
    l !! i = Some x -> l !! c = Some y -> (kills x <= kills y)%Z;
  sinking_bridge : forall c x y,
    p <> s -> child p c ->
    l !! ((p - 1) / 2) = Some x -> l !! c = Some y -> (kills x <= kills y)%Z
}.

(** The array while the loop of [_siftdown] runs, likewise: the order can
    fail only between [p] and its parent. *)
Record rising (s : nat) (v : Tank) (l : list Tank) (p : nat) : Prop := {
  rising_path : on_path s p;
  rising_at : l !! p = Some v;
  rising_edges : forall i c x y,
    s <= i -> child i c -> c <> p ->
    l !! i = Some x -> l !! c = Some y -> (kills x <= kills y)%Z;
  rising_bridge : forall c x y,
    p <> s -> child p c ->
    l !! ((p - 1) / 2) = Some x -> l !! c = Some y -> (kills x <= kills y)%Z
}.

(** ** Further predicates on states and on the rule engine *)



(** Every slot of [currentClientDatas] refers to a ClientData object. *)
Definition registry_ok (s : Server) : Prop :=
  forall r, In r (currentClientDatas s) -> is_Some (heap s !! r).

Definition other_than (sid : string) (r : string) : bool := negb (String.eqb r sid).

(** What a rule engine may do to the array of sessions it is handed. *)
Definition gameTick_removes_at_most_one `{Externals} : Prop :=
  forall h q l r sock h' q' l',
    gameLogicService_gameTick h q l r sock = (h', q', l') ->
    length l <= S (length l').

Definition gameTick_keeps_registry `{Externals} : Prop :=
  forall h q l r sock h' q' l',
    gameLogicService_gameTick h q l r sock = (h', q', l') -> l' = l.

Definition gameTick_keeps_sessions `{Externals} : Prop :=
  forall h q l r sock h' q' l',
    gameLogicService_gameTick h q l r sock = (h', q', l') ->
    (forall x, In x l -> is_Some (h !! x)) ->
    forall x, In x l' -> is_Some (h' !! x).

(** A rule engine in which a tick takes the ticked session out of the
    array, and one in which a tick empties the array. *)
Definition leaving_gameTick (h : gmap string ClientData) (q : Quadtree) (l : list string)
    (r : string) (sock : option string) : gmap string ClientData * Quadtree * list string :=
  match findIndex l r with
  | Some i => (h, q, delete i l)
  | None => (h, q, l)
  end.

Definition leavingExternals : Externals :=
  {| config := sampleConfig;
     js_sub := sample_sub;
     js_div := sample_div;
     js_ToString := sample_ToString;
     newClientData := sample_newClientData;
     getSpawnLocation := fun _ => (100%Q, 100%Q);
     initializeGame := fun q => q;
     gameLogicService_gameTick := leaving_gameTick;
     queryGameObjects := sample_queryGameObjects |}.

Definition sweepingExternals : Externals :=
  {| config := sampleConfig;
     js_sub := sample_sub;
     js_div := sample_div;
     js_ToString := sample_ToString;
     newClientData := sample_newClientData;
     getSpawnLocation := fun _ => (100%Q, 100%Q);
     initializeGame := fun q => q;
     gameLogicService_gameTick := fun h q _ _ _ => (h, q, []);
     queryGameObjects := sample_queryGameObjects |}.

(** The events whose callbacks write to [currentClientDatas], to the
    quadtree or to [sockets]: the acknowledgement, the disconnection and the
    firing of the timer of [gameObjectUpdater]. *)
Definition writes_world (e : Event) : bool :=
  match e with
  | OnWelcomeReceived _ _ | OnDisconnect _ => true
  | Timer n _ =>
      match intervals !! n with
      | Some (GameObjectUpdater, _) => true
      | _ => false
      end
  | _ => false
  end.

(** * Properties *)

(** ** Strings *)

Lemma substring_0_length (m : nat) (s : string) :
  String.length (String.substring 0 m s) = Nat.min m (String.length s).
Proof.
  revert s; induction m as [|m IH]; intros [|c s]; simpl; try reflexivity.
  now rewrite IH.
Qed.

Lemma substring_0_prefix (m : nat) (s : string) :
  exists rest, s = (String.substring 0 m s ++ rest)%string.
Proof.
  revert s; induction m as [|m IH]; intros [|c s]; simpl.
  - now exists "".
  - now exists (String c s).
  - now exists "".
  - destruct (IH s) as [rest Hrest]. exists rest.
    change (String c s = String c (String.substring 0 m s ++ rest)%string).
    now f_equal.
Qed.

Lemma js_substring_0 (b : nat) (s : string) :
  js_substring 0 b s = String.substring 0 (Nat.min b (String.length s)) s.
Proof.
  unfold js_substring. simpl. now rewrite Nat.sub_0_r.
Qed.

Lemma js_substring_0_length (b : nat) (s : string) :
  String.length (js_substring 0 b s) = Nat.min b (String.length s).
Proof.
  rewrite js_substring_0, substring_0_length. lia.
Qed.

(** ** The handshake-init handler *)

(** C6: [init] with a string stores the name cut to its first ten
    characters: the stored name is a prefix of the supplied one, of length
    min(10, length), hence of length 10 for a name of 15 characters. *)
Theorem init_stores_truncated_name `{Externals}
    (s : Server) (sid : string) (cd : ClientData) (name : string) :
  heap s !! sid = Some cd ->
  exists s' out stored,
    on_init s sid (VStr name) = Done (s', out)
    /\ screenName <$> heap s' !! sid = Some stored
    /\ stored = js_substring 0 10 name
    /\ String.length stored = Nat.min 10 (String.length name)
    /\ (exists rest, name = (stored ++ rest)%string)
    /\ (String.length name = 15 -> String.length stored = 10).
Proof.
  intros Hcd. unfold on_init. rewrite Hcd.
  eexists _, _, (js_substring 0 10 name). split; [reflexivity|].
  split; [simpl; now rewrite lookup_insert_eq|].
  split; [reflexivity|].
  split; [apply js_substring_0_length|].
  split.
  - rewrite js_substring_0. apply substring_0_prefix.
  - intros Hlen. rewrite js_substring_0_length, Hlen. reflexivity.
Qed.

Lemma init_stores_truncated_name_witness :
  heap sample_connected !! "a" = Some (session_of sample_connected "a")
  /\ exists s' out stored,
       @on_init sampleExternals sample_connected "a" (VStr "ABCDEFGHIJKLMNO") = Done (s', out)
       /\ screenName <$> heap s' !! "a" = Some stored
       /\ stored = js_substring 0 10 "ABCDEFGHIJKLMNO"
       /\ String.length stored = Nat.min 10 (String.length "ABCDEFGHIJKLMNO")
       /\ (exists rest, "ABCDEFGHIJKLMNO" = (stored ++ rest)%string)
       /\ (String.length "ABCDEFGHIJKLMNO" = 15 -> String.length stored = 10).
Proof.
  split; [vm_compute; reflexivity|].
  apply (@init_stores_truncated_name sampleExternals sample_connected "a"
           (session_of sample_connected "a") "ABCDEFGHIJKLMNO").
  vm_compute; reflexivity.
Defined.

Example init_fifteen_characters :
  screenName <$>
    heap (fst (outcome_value
                 (@on_init sampleExternals sample_connected "a" (VStr "ABCDEFGHIJKLMNO"))))
      !! "a"
  = Some "ABCDEFGHIJ".
Proof. vm_compute; reflexivity. Qed.

(** C4, as the code has it: the handlers validate nothing.  [init] with
    anything but a string raises a TypeError and leaves the state as it was;
    [client_checkin] stores the payload it is given, whatever it is, over
    the previous input when the player of the session is an object, and
    raises a TypeError otherwise. *)
Theorem handlers_do_not_validate `{Externals}
    (s : Server) (sid : string) (cd : ClientData) :
  heap s !! sid = Some cd ->
  (forall v, (forall n, v <> VStr n) -> on_init s sid v = Throws (s, []))
  /\ (forall v now fields,
        player cd = VObj fields ->
        on_client_checkin s sid v now =
        Done (set_heap (<[sid := set_lastHeartbeat (Some now)
                                   (set_player (VObj (obj_set "userInput" v fields)) cd)]>
                          (heap s)) s, []))
  /\ (forall v now,
        (forall fields, player cd <> VObj fields) ->
        on_client_checkin s sid v now = Throws (s, [])).
Proof.
  intros Hcd. repeat split.
  - intros v Hv. unfold on_init. rewrite Hcd.
    destruct v; try reflexivity. now destruct (Hv s0).
  - intros v now fields Hp. unfold on_client_checkin. rewrite Hcd, Hp. reflexivity.
  - intros v now Hp. unfold on_client_checkin. rewrite Hcd.
    destruct (player cd) eqn:E; try reflexivity. now destruct (Hp fields).
Qed.

Lemma handlers_do_not_validate_witness :
  heap sample_named !! "a" = Some (session_of sample_named "a")
  /\ @on_init sampleExternals sample_named "a" VUndefined = Throws (sample_named, [])
  /\ player (session_of
               (fst (outcome_value
                       (on_client_checkin sample_named "a" VUndefined 7)))
               "a")
     = VObj [("screenWidth", VNum 0); ("screenHeight", VNum 0); ("userInput", VUndefined)].
Proof.
  split; [vm_compute; reflexivity|].
  destruct (@handlers_do_not_validate sampleExternals sample_named "a"
              (session_of sample_named "a")) as (Hinit & Hcheckin & _).
  { vm_compute; reflexivity. }
  split.
  - apply Hinit. discriminate.
  - rewrite (Hcheckin VUndefined 7%Z
               [("screenWidth", VNum 0); ("screenHeight", VNum 0)]).
    + vm_compute; reflexivity.
    + vm_compute; reflexivity.
Defined.

(** C4 fails as stated: [init] without a display name throws. *)
Lemma init_without_name_throws :
  heap sample_connected !! "a" <> None
  /\ completes (@on_init sampleExternals sample_connected "a" VUndefined) = false.
Proof. split; [vm_compute; discriminate | vm_compute; reflexivity]. Qed.

(** ** The quadtree *)


Lemma qt_remove_In (o : QObj) (key : RemoveKey) (q : Quadtree) (e : QObj) :
  In e (qt_remove o key q) <-> In e q /\ qt_same key e o = false.
Proof.
  unfold qt_remove. rewrite filter_In, negb_true_iff. reflexivity.
Qed.

Lemma qt_get_In (area : Box) (q : Quadtree) (e : QObj) :
  In e (qt_get area q) -> In e q.
Proof. unfold qt_get. rewrite filter_In. tauto. Qed.

Lemma filter_all {A : Type} (f : A -> bool) (l : list A) :
  (forall x, In x l -> f x = true) -> List.filter f l = l.
Proof.
  induction l as [|x l IH]; simpl; intros Hall; [reflexivity|].
  rewrite (Hall x (or_introl eq_refl)). f_equal. apply IH. auto.
Qed.

Lemma remove_bullets_In (bs : list Bullet) (q : Quadtree) (e : QObj) :
  In e (fold_left (fun q b => qt_remove (Bullet_forQuadtree b) NoKey q) bs q)
  <-> In e q /\ forall b, In b bs -> box_eqb (qbox e) (bullet_box b) = false.
Proof.
  revert q; induction bs as [|b bs IH]; intros q; simpl.
  - split; [intros He; split; [assumption | intros b []] | tauto].
  - rewrite IH, qt_remove_In. simpl. split.
    + intros [[Hq Hb] Hbs]. split; [assumption|].
      intros b' [<- | Hb']; auto.
    + intros [Hq Hbs]. repeat split; auto.
Qed.

Lemma fold_left_over_map {A B C : Type} (f : A -> C -> A) (g : B -> C) (l : list B) (a : A) :
  fold_left f (map g l) a = fold_left (fun a x => f a (g x)) l a.
Proof. revert a; induction l as [|x l IH]; intros a; simpl; [reflexivity | apply IH]. Qed.

(** The quadtree that [disconnect] leaves is the one obtained by making
    the calls of [disconnect_removals] in order. *)
Lemma disconnect_quadtree (s : Server) (sid : string) (cd : ClientData) :
  heap s !! sid = Some cd ->
  quadtree (fst (outcome_value (on_disconnect s sid)))
  = fold_left (fun q rm => qt_remove (fst rm) (snd rm) q)
              (disconnect_removals (tank cd)) (quadtree s).
Proof.
  intros Hcd. unfold on_disconnect, disconnect_removals. rewrite Hcd.
  rewrite fold_left_app, fold_left_over_map. simpl.
  destruct (findIndex (currentClientDatas s) sid);
    [destruct (nullish (player cd))|]; reflexivity.
Qed.

Lemma disconnect_quadtree_In (s : Server) (sid : string) (cd : ClientData) (e : QObj) :
  heap s !! sid = Some cd ->
  In e (quadtree (fst (outcome_value (on_disconnect s sid))))
  <-> In e (quadtree s)
      /\ qid e <> tank_id (tank cd)
      /\ forall b, In b (bullets (tank cd)) -> box_eqb (qbox e) (bullet_box b) = false.
Proof.
  intros Hcd.
  assert (Hq : quadtree (fst (outcome_value (on_disconnect s sid)))
               = qt_remove (Tank_forQuadtree (tank cd)) KeyId
                   (fold_left (fun q b => qt_remove (Bullet_forQuadtree b) NoKey q)
                              (bullets (tank cd)) (quadtree s))).
  { unfold on_disconnect. rewrite Hcd.
    destruct (findIndex (currentClientDatas s) sid);
      [destruct (nullish (player cd))|]; reflexivity. }
  rewrite Hq, qt_remove_In, remove_bullets_In. simpl.
  rewrite String.eqb_neq. tauto.
Qed.

(** ** The registry *)

Lemma findIndex_None (l : list string) (sid : string) :
  findIndex l sid = None <-> ~ In sid l.
Proof.
  induction l as [|r l IH]; simpl; [tauto|].
  destruct (String.eqb_spec r sid) as [->|Hne].
  - split; [discriminate | intros Hn; destruct Hn; now left].
  - destruct (findIndex l sid); simpl.
    + split; [discriminate|]. intros Hn. exfalso. apply Hn. right.
      destruct (in_dec string_dec sid l) as [Hin|Hnot]; [exact Hin|].
      apply IH in Hnot. discriminate.
    + split; [|reflexivity]. intros _ [Heq | Hin]; [congruence|].
      now apply IH in Hin.
Qed.

Lemma findIndex_delete_count (l : list string) (sid : string) (i : nat) :
  findIndex l sid = Some i ->
  count_occ string_dec (delete i l) sid = Nat.pred (count_occ string_dec l sid).
Proof.
  revert i; induction l as [|r l IH]; intros i; simpl; [discriminate|].
  destruct (String.eqb_spec r sid) as [->|Hne].
  - intros [= <-]. simpl. destruct (string_dec sid sid); [reflexivity | congruence].
  - destruct (findIndex l sid) as [j|] eqn:Hj; simpl; [|discriminate].
    intros [= <-]. simpl.
    destruct (string_dec r sid); [congruence|]. now apply IH.
Qed.

Lemma In_delete {A : Type} (i : nat) (l : list A) (x : A) :
  In x (delete i l) -> In x l.
Proof.
  revert i; induction l as [|y l IH]; intros [|i]; simpl; try tauto.
  intros [Heq | Hin]; [now left | right; now apply (IH i)].
Qed.

(** The acknowledgement takes a session that is in neither structure to
    the ACTIVE state. *)
Lemma handshake_ack_reaches_ACTIVE `{Externals}
    (s : Server) (sid : string) (cd : ClientData) (data : val) :
  PRE_ACTIVE s sid cd ->
  nullish data = false ->
  exists s' cd',
    on_welcome_received s sid data = Done (s', [])
    /\ tank cd' = tank cd
    /\ ACTIVE s' sid cd'.
Proof.
  intros [Hcd Hreg Hidx Hbul] Hdata. unfold on_welcome_received. rewrite Hcd.
  destruct (getProp data "player") as [p|] eqn:Hp;
    [|destruct data; simpl in *; discriminate].
  destruct (getProp data "id") as [i|] eqn:Hi;
    [|destruct data; simpl in *; discriminate].
  eexists _, (set_player p cd). split; [reflexivity|]. split; [reflexivity|].
  split; simpl.
  - apply lookup_insert_eq.
  - rewrite count_occ_app. simpl.
    apply (count_occ_not_In string_dec) in Hreg. rewrite Hreg.
    destruct (string_dec sid sid); [reflexivity | congruence].
  - unfold indexed_once, qt_put. rewrite List.filter_app. simpl.
    rewrite String.eqb_refl.
    assert (Hnone : List.filter (fun e => String.eqb (qid e) (tank_id (tank cd))) (quadtree s) = []).
    { induction (quadtree s) as [|e q IH]; simpl; [reflexivity|].
      destruct (String.eqb_spec (qid e) (tank_id (tank cd))) as [Heq|Hne].
      - exfalso. apply (Hidx e); [now left | assumption].
      - apply IH. intros e' He'. apply Hidx. now right. }
    now rewrite Hnone.
  - rewrite Hbul. intros b [].
Qed.

(** ** Disconnection *)





(** A session that disconnects before its handshake is complete: the
    handler leaves the whole state, so [currentClientDatas] and the
    quadtree, as it was; and through any sequence of the events that the
    session can cause before the acknowledgement, both stay as they were and
    no query returns an entry of its tank. *)
Lemma own_events_before_ack_change_nothing `{Externals}
    (s : Server) (sid : string) (cd : ClientData) (evs : list Event) :
  PRE_ACTIVE s sid cd ->
  forallb (before_ack sid) evs = true ->
  on_disconnect s sid = Done (s, [])
  /\ Forall (fun s' =>
               currentClientDatas s' = currentClientDatas s
               /\ quadtree s' = quadtree s
               /\ forall area e, In e (qt_get area (quadtree s')) ->
                                 qid e <> tank_id (tank cd))
            (states s evs).
Proof.
  assert (Hdisc : forall s0 cd0, PRE_ACTIVE s0 sid cd0 -> on_disconnect s0 sid = Done (s0, [])).
  { intros s0 cd0 [Hcd Hreg Hidx Hbul]. unfold on_disconnect.
    rewrite Hcd, Hbul. simpl.
    apply findIndex_None in Hreg. rewrite Hreg.
    unfold qt_remove. rewrite filter_all.
    - now destruct s0.
    - intros e He. simpl. apply negb_true_iff, String.eqb_neq. now apply Hidx. }
  intros Hpre Hevs. split; [now apply (Hdisc s cd)|].
  assert (Hstep : forall s0 cd0 e,
             PRE_ACTIVE s0 sid cd0 -> before_ack sid e = true ->
             exists cd1,
               PRE_ACTIVE (fst (outcome_value (step s0 e))) sid cd1
               /\ tank cd1 = tank cd0
               /\ currentClientDatas (fst (outcome_value (step s0 e))) = currentClientDatas s0
               /\ quadtree (fst (outcome_value (step s0 e))) = quadtree s0).
  { intros s0 cd0 e Hp He.
    assert (Hsame : exists cd1, PRE_ACTIVE s0 sid cd1 /\ tank cd1 = tank cd0)
      by (now exists cd0).
    destruct Hp as [Hcd Hreg Hidx Hbul].
    assert (Hupd : forall cd1, tank cd1 = tank cd0 ->
              PRE_ACTIVE (set_heap (<[sid := cd1]> (heap s0)) s0) sid cd1).
    { intros cd1 Ht. split; simpl; rewrite ?Ht; auto. apply lookup_insert_eq. }
    destruct e; simpl in He; try discriminate;
      apply String.eqb_eq in He; subst sid0; simpl.
    - unfold on_init. rewrite Hcd.
      destruct screenName0; simpl; try (destruct Hsame as [c Hc]; exists c; tauto).
      eexists; split; [apply Hupd; reflexivity | auto].
    - unfold on_pongcheck. rewrite Hcd. simpl.
      eexists; split; [apply Hupd; reflexivity | auto].
    - rewrite (Hdisc s0 cd0); [|now split]. simpl.
      destruct Hsame as [c Hc]; exists c; tauto.
    - unfold on_client_checkin. rewrite Hcd.
      destruct (setProp (player cd0) "userInput" clientCheckinData); simpl;
        try (destruct Hsame as [c Hc]; exists c; tauto).
      eexists; split; [apply Hupd; reflexivity | auto].
    - unfold on_windowResized. rewrite Hcd.
      destruct (getProp data "screenWidth"), (getProp data "screenHeight"); simpl;
        try (destruct Hsame as [c Hc]; exists c; tauto).
      destruct (setProp (player cd0) "screenWidth" v) as [p1|]; simpl;
        try (destruct Hsame as [c Hc]; exists c; tauto).
      destruct (setProp p1 "screenHeight" v0); simpl;
        try (destruct Hsame as [c Hc]; exists c; tauto).
      eexists; split; [apply Hupd; reflexivity | auto]. }
  assert (Hhere : forall s0 cd0, PRE_ACTIVE s0 sid cd0 ->
             forall area e, In e (qt_get area (quadtree s0)) -> qid e <> tank_id (tank cd0)).
  { intros s0 cd0 Hp area e He. apply (pre_unindexed _ _ _ Hp). eapply qt_get_In, He. }
  assert (Hgen : forall evs0 s0 cd0,
             PRE_ACTIVE s0 sid cd0 -> tank cd0 = tank cd ->
             currentClientDatas s0 = currentClientDatas s -> quadtree s0 = quadtree s ->
             forallb (before_ack sid) evs0 = true ->
             Forall (fun s' =>
                       currentClientDatas s' = currentClientDatas s
                       /\ quadtree s' = quadtree s
                       /\ forall area e, In e (qt_get area (quadtree s')) ->
                                         qid e <> tank_id (tank cd))
                    (states s0 evs0)).
  { induction evs0 as [|e evs0 IH]; intros s0 cd0 Hp Ht Hr Hq Hall; simpl.
    - constructor; [|constructor]. repeat split; auto.
      rewrite <- Ht. now apply Hhere.
    - simpl in Hall. apply andb_true_iff in Hall as [He Hall].
      constructor.
      + repeat split; auto. rewrite <- Ht. now apply Hhere.
      + destruct (Hstep s0 cd0 e Hp He) as (cd1 & Hp1 & Ht1 & Hr1 & Hq1).
        destruct (step s0 e) as [[s1 o]|[s1 o]]; simpl in *.
        * apply (IH s1 cd1); auto; congruence.
        * constructor; [|constructor]. repeat split; try congruence.
          rewrite <- Ht, <- Ht1. now apply Hhere. }
  now apply (Hgen evs s cd).
Qed.

Lemma sample_named_is_PRE_ACTIVE :
  PRE_ACTIVE sample_named "a" (session_of sample_named "a").
Proof.
  split.
  - vm_compute; reflexivity.
  - vm_compute. tauto.
  - intros e He. vm_compute in He. destruct He.
  - vm_compute; reflexivity.
Qed.

Lemma own_events_before_ack_change_nothing_example :
  PRE_ACTIVE sample_named "a" (session_of sample_named "a")
  /\ forallb (before_ack "a")
       [OnClientCheckin "a" VUndefined 5; OnInit "a" (VStr "bobby"); OnDisconnect "a"] = true
  /\ on_disconnect sample_named "a" = Done (sample_named, []).
Proof.
  split; [exact sample_named_is_PRE_ACTIVE|].
  split; [vm_compute; reflexivity|].
  exact (proj1 (@own_events_before_ack_change_nothing sampleExternals sample_named "a"
                  (session_of sample_named "a")
                  [OnClientCheckin "a" VUndefined 5; OnInit "a" (VStr "bobby"); OnDisconnect "a"]
                  sample_named_is_PRE_ACTIVE eq_refl)).
Defined.

(** C8, where the code departs from it: on disconnection the tank is
    removed with the key ['id'], but every bullet is removed without a key,
    that is by its box.  Here two sessions each have one live bullet with
    the same box; when "a" disconnects, the entry of the bullet of "b" goes
    too, although "b" stays registered and still owns that bullet. *)
Theorem disconnect_removes_foreign_bullet :
  let s' := fst (outcome_value (on_disconnect sample_two "a")) in
  let bullet_a := {| bullet_id := "a#0"; bullet_box := sample_box (100%Q, 100%Q) 5%Q |} in
  let bullet_b := {| bullet_id := "b#0"; bullet_box := sample_box (100%Q, 100%Q) 5%Q |} in
  bullets (tank (session_of sample_two "a")) = [bullet_a]
  /\ bullets (tank (session_of sample_two "b")) = [bullet_b]
  /\ disconnect_removals (tank (session_of sample_two "a"))
     = [(Bullet_forQuadtree bullet_a, NoKey);
        (Tank_forQuadtree (tank (session_of sample_two "a")), KeyId)]
  /\ In (Bullet_forQuadtree bullet_b) (quadtree sample_two)
  /\ currentClientDatas s' = ["b"]
  /\ bullets (tank (session_of s' "b")) = [bullet_b]
  /\ ~ In (Bullet_forQuadtree bullet_b) (quadtree s').
Proof.
  vm_compute. repeat split; auto.
  intros [Hx | []]. discriminate.
Qed.

(** Every bullet of a disconnecting tank is removed by a call without
    key; only the tank is removed by identity. *)
Lemma bullet_removals_have_no_key (t : Tank) (b : Bullet) :
  In b (bullets t) -> In (Bullet_forQuadtree b, NoKey) (disconnect_removals t).
Proof.
  intros Hb. unfold disconnect_removals. apply in_or_app. left.
  apply in_map_iff. now exists b.
Qed.

(** ** The handshake acknowledgement *)




(** ** The scoreboard *)

(** *** The heap package *)

Lemma half_spec (n : nat) : 2 * (n / 2) <= n < 2 * (n / 2) + 2.
Proof.
  pose proof (Nat.div_mod_eq n 2). pose proof (Nat.mod_upper_bound n 2). lia.
Qed.

Lemma child_parent (i c : nat) : child i c -> (c - 1) / 2 = i /\ i < c.
Proof. intros [-> | ->]; pose proof (half_spec (2 * i + 1 - 1));
  pose proof (half_spec (2 * i + 2 - 1)); lia. Qed.

Lemma parent_child (p : nat) : 0 < p -> child ((p - 1) / 2) p.
Proof. intros Hp. unfold child. pose proof (half_spec (p - 1)). lia. Qed.

Lemma on_path_le (s p : nat) : on_path s p -> s <= p.
Proof.
  induction 1 as [|p c _ IH Hc]; [lia|]. apply child_parent in Hc. lia.
Qed.

Lemma on_path_parent (s p : nat) :
  on_path s p -> s < p -> on_path s ((p - 1) / 2) /\ child ((p - 1) / 2) p.
Proof.
  intros Hp Hlt. destruct Hp as [|q c Hq Hc]; [lia|].
  destruct (child_parent _ _ Hc) as [-> _]. split; assumption.
Qed.

Lemma by_kills_lt (a b : Tank) : (by_kills a b <? 0)%Z = (kills a <? kills b)%Z.
Proof.
  unfold by_kills. destruct (Z.ltb_spec (kills a - kills b) 0), (Z.ltb_spec (kills a) (kills b));
    try reflexivity; lia.
Qed.

Section Exchange.
Context {A : Type}.
Implicit Types (l : list A).

Lemma insert_perm_cons l j a y :
  l !! j = Some y -> Permutation (y :: <[j := a]> l) (a :: l).
Proof.
  revert j; induction l as [|b l IH]; intros [|j] Hj; simpl in *; try discriminate.
  - injection Hj as ->. apply perm_swap.
  - etransitivity; [apply perm_swap|].
    etransitivity; [apply perm_skip, (IH j Hj) | apply perm_swap].
Qed.

(** Exchanging the elements at two positions permutes the array. *)
Lemma exchange_perm l i j x y :
  l !! i = Some x -> l !! j = Some y ->
  Permutation (<[i := y]> (<[j := x]> l)) l.
Proof.
  revert i j; induction l as [|a l IH]; intros [|i] [|j] Hi Hj; simpl in *;
    try discriminate.
  - injection Hi as ->. injection Hj as ->. reflexivity.
  - injection Hi as ->. now apply insert_perm_cons.
  - injection Hj as ->. now apply insert_perm_cons.
  - apply perm_skip. now apply IH.
Qed.

Lemma exchange_lookup l i j x y k :
  l !! i = Some x -> l !! j = Some y -> i <> j ->
  <[i := y]> (<[j := x]> l) !! k
  = if decide (k = i) then Some y else if decide (k = j) then Some x else l !! k.
Proof.
  intros Hi Hj Hne. apply lookup_lt_Some in Hi, Hj.
  destruct (decide (k = i)) as [->|Hki].
  - apply list_lookup_insert_eq. now rewrite length_insert.
  - rewrite list_lookup_insert_ne by congruence.
    destruct (decide (k = j)) as [->|Hkj].
    + now apply list_lookup_insert_eq.
    + apply list_lookup_insert_ne. congruence.
Qed.

End Exchange.

(** One round of the loop of [_siftup]: the smaller child [m], at [c],
    changes places with the sinking element. *)
Lemma sinking_step (s : nat) (v m : Tank) (l : list Tank) (p c : nat) :
  sinking s v l p -> child p c -> l !! c = Some m ->
  (forall c' y, child p c' -> l !! c' = Some y -> (kills m <= kills y)%Z) ->
  sinking s v (<[c := v]> (<[p := m]> l)) c.
Proof.
  intros [Hpath Hat Hedges Hbridge] Hc Hm Hmin.
  destruct (child_parent _ _ Hc) as [Hpar Hlt].
  assert (Hne : c <> p) by lia.
  assert (Hlook := fun k => exchange_lookup l c p m v k Hm Hat Hne).
  split.
  - now apply on_path_child with p.
  - rewrite Hlook. now destruct (decide (c = c)).
  - intros i k x y Hsi Hik Hic Hkc. rewrite !Hlook.
    destruct (child_parent _ _ Hik) as [Hpar' Hlt'].
    destruct (decide (i = c)) as [|_]; [contradiction|].
    destruct (decide (k = c)) as [|_]; [contradiction|].
    destruct (decide (i = p)) as [->|Hip], (decide (k = p)) as [->|Hkp].
    + lia.
    + intros [= <-] Hy. now apply (Hmin k).
    + intros Hx [= <-]. apply (Hbridge c x m); [lia | assumption | | assumption].
      now rewrite Hpar'.
    + now apply Hedges.
  - intros d x y _ Hcd. rewrite Hpar, !Hlook.
    destruct (child_parent _ _ Hcd) as [_ Hlt'].
    destruct (decide (p = c)) as [|_]; [lia|].
    destruct (decide (p = p)) as [_|]; [|contradiction].
    destruct (decide (d = c)) as [|_]; [lia|].
    destruct (decide (d = p)) as [|_]; [lia|].
    intros [= <-] Hy. apply (Hedges c d m y); try assumption; try lia.
    apply on_path_le in Hpath. lia.
Qed.

(** At a leaf, the sunk element is ready to rise. *)
Lemma sinking_leaf (s : nat) (v : Tank) (l : list Tank) (p : nat) :
  sinking s v l p -> length l <= 2 * p + 1 -> rising s v l p.
Proof.
  intros [Hpath Hat Hedges Hbridge] Hleaf. split; try assumption.
  intros i c x y Hsi Hic Hcp Hx Hy.
  destruct (decide (i = p)) as [->|Hip]; [|now apply (Hedges i c)].
  apply lookup_lt_Some in Hy. destruct Hic; lia.
Qed.

(** One round of the loop of [_siftdown]: the parent [q] changes places
    with the rising element, which is smaller. *)
Lemma rising_step (s : nat) (v q : Tank) (l : list Tank) (p : nat) :
  rising s v l p -> s < p -> l !! ((p - 1) / 2) = Some q -> (kills v < kills q)%Z ->
  rising s v (<[(p - 1) / 2 := v]> (<[p := q]> l)) ((p - 1) / 2).
Proof.
  intros [Hpath Hat Hedges Hbridge] Hsp Hq Hvq.
  destruct (on_path_parent _ _ Hpath Hsp) as [Hpath' Hchild].
  set (pp := (p - 1) / 2) in *.
  destruct (child_parent _ _ Hchild) as [_ Hlt].
  assert (Hne : pp <> p) by lia.
  assert (Hlook := fun k => exchange_lookup l pp p q v k Hq Hat Hne).
  assert (Hspp : s <= pp) by now apply on_path_le.
  split.
  - assumption.
  - rewrite Hlook. now destruct (decide (pp = pp)).
  - intros i k x y Hsi Hik Hkpp. rewrite !Hlook.
    destruct (child_parent _ _ Hik) as [Hpar' Hlt'].
    destruct (decide (k = pp)) as [|_]; [contradiction|].
    destruct (decide (i = pp)) as [->|Hipp].
    + intros [= <-]. destruct (decide (k = p)) as [->|Hkp].
      * intros [= <-]. lia.
      * intros Hy. pose proof (Hedges pp k q y Hsi Hik Hkp Hq Hy). lia.
    + destruct (decide (i = p)) as [->|Hip].
      * intros [= <-]. destruct (decide (k = p)) as [|_]; [lia|].
        intros Hy. apply (Hbridge k q y); try assumption. lia.
      * destruct (decide (k = p)) as [->|Hkp].
        -- destruct (child_parent _ _ Hik) as [Heq _]. subst pp. congruence.
        -- now apply Hedges.
  - intros d x y Hpps Hd. rewrite !Hlook.
    assert (Hspp' : s < pp) by lia.
    destruct (on_path_parent _ _ Hpath' Hspp') as [Hpath'' Hchild'].
    destruct (child_parent _ _ Hchild') as [_ Hlt''].
    destruct (child_parent _ _ Hd) as [_ Hlt3].
    apply on_path_le in Hpath''.
    destruct (decide ((pp - 1) / 2 = pp)) as [|_]; [lia|].
    destruct (decide ((pp - 1) / 2 = p)) as [|_]; [lia|].
    destruct (decide (d = pp)) as [|_]; [lia|].
    intros Hx. pose proof (Hedges _ _ x q Hpath'' Hchild' Hne Hx Hq) as Hxq.
    destruct (decide (d = p)) as [->|Hdp].
    + intros [= <-]. assumption.
    + intros Hy. pose proof (Hedges pp d q y Hspp Hd Hdp Hq Hy). lia.
Qed.

(** Where the loop of [_siftdown] stops, the heap is in order from [s]. *)
Lemma rising_stop (s : nat) (v : Tank) (l : list Tank) (p : nat) :
  rising s v l p ->
  (p <= s \/ exists q, l !! ((p - 1) / 2) = Some q /\ (kills q <= kills v)%Z) ->
  heap_from s l.
Proof.
  intros [Hpath Hat Hedges Hbridge] Hstop i c x y Hsi Hic Hx Hy.
  destruct (decide (c = p)) as [->|Hcp]; [|now apply (Hedges i c)].
  destruct (child_parent _ _ Hic) as [Hpar Hlt].
  destruct Hstop as [Hle | (q & Hq & Hqv)]; [lia|].
  rewrite Hpar in Hq. congruence.
Qed.

Lemma siftdown_loop_spec (s : nat) (v : Tank) (orig : list Tank) :
  forall fuel array p,
    p <= fuel ->
    rising s v (<[p := v]> array) p ->
    Permutation (<[p := v]> array) orig ->
    heap_from s (siftdown_loop by_kills fuel array s p v)
    /\ Permutation (siftdown_loop by_kills fuel array s p v) orig.
Proof.
  induction fuel as [|fuel IH]; intros array p Hfuel Hr Hperm; cbn [siftdown_loop].
  - split; [|assumption]. apply (rising_stop s v _ p Hr). left. lia.
  - destruct (Nat.ltb_spec s p) as [Hsp|Hsp].
    2:{ split; [|assumption]. apply (rising_stop s v _ p Hr). now left. }
    destruct (on_path_parent _ _ (rising_path _ _ _ _ Hr) Hsp) as [_ Hchild].
    destruct (child_parent _ _ Hchild) as [_ Hlt].
    assert (Hp : p < length array).
    { pose proof (rising_at _ _ _ _ Hr) as Hat. apply lookup_lt_Some in Hat.
      now rewrite length_insert in Hat. }
    destruct (array !! ((p - 1) / 2)) as [parent|] eqn:Hparent.
    2:{ apply lookup_ge_None in Hparent. lia. }
    assert (Hparent' : <[p := v]> array !! ((p - 1) / 2) = Some parent).
    { rewrite list_lookup_insert_ne by lia. assumption. }
    rewrite by_kills_lt. destruct (Z.ltb_spec (kills v) (kills parent)) as [Hvq|Hvq].
    + assert (Heq : <[(p - 1) / 2 := v]> (<[p := parent]> array)
                    = <[(p - 1) / 2 := v]> (<[p := parent]> (<[p := v]> array)))
        by now rewrite list_insert_insert_eq.
      apply IH; [lia | |]; rewrite Heq.
      * now apply rising_step.
      * etransitivity; [|exact Hperm].
        apply exchange_perm; [assumption | apply (rising_at _ _ _ _ Hr)].
    + split; [|assumption]. apply (rising_stop s v _ p Hr). right. now exists parent.
Qed.

(** The child the loop of [_siftup] chooses is the smaller one. *)
Lemma siftup_choice (array : list Tank) (p : nat) :
  2 * p + 1 < length array ->
  exists (c : nat) (m : Tank),
    match array !! (2 * p + 1), array !! (2 * p + 1 + 1) with
    | Some lchild, Some rchild =>
        if (2 * p + 1 + 1 <? length array)%nat && negb (by_kills lchild rchild <? 0)%Z
        then 2 * p + 1 + 1 else 2 * p + 1
    | _, _ => 2 * p + 1
    end = c
    /\ child p c /\ array !! c = Some m
    /\ forall c' y, child p c' -> array !! c' = Some y -> (kills m <= kills y)%Z.
Proof.
  intros Hlen. unfold child.
  destruct (lookup_lt_is_Some_2 array (2 * p + 1) Hlen) as [lc Hlc]. rewrite Hlc.
  replace (2 * p + 2) with (2 * p + 1 + 1) by lia.
  destruct (array !! (2 * p + 1 + 1)) as [rc|] eqn:Hrc.
  - pose proof (lookup_lt_Some _ _ _ Hrc) as Hr. cbv beta iota.
    destruct (Nat.ltb_spec (2 * p + 1 + 1) (length array)) as [_|]; [|lia].
    rewrite by_kills_lt. simpl andb.
    destruct (Z.ltb_spec (kills lc) (kills rc)) as [Hlt|Hge]; simpl negb; cbv iota.
    + exists (2 * p + 1), lc. repeat split; [now left | assumption |].
      intros c' y [-> | ->] Hy; rewrite ?Hlc, ?Hrc in Hy; injection Hy as <-; lia.
    + exists (2 * p + 1 + 1), rc. repeat split; [now right | assumption |].
      intros c' y [-> | ->] Hy; rewrite ?Hlc, ?Hrc in Hy; injection Hy as <-; lia.
  - exists (2 * p + 1), lc. repeat split; [now left | assumption |].
    intros c' y [-> | ->] Hy; rewrite ?Hlc, ?Hrc in Hy; [injection Hy as <-; lia | discriminate].
Qed.

Lemma siftup_loop_spec (s : nat) (v : Tank) (orig : list Tank) :
  forall fuel array endpos p array' p',
    endpos = length array ->
    endpos <= fuel + p ->
    sinking s v (<[p := v]> array) p ->
    Permutation (<[p := v]> array) orig ->
    siftup_loop by_kills fuel array endpos p = (array', p') ->
    rising s v (<[p' := v]> array') p' /\ Permutation (<[p' := v]> array') orig.
Proof.
  induction fuel as [|fuel IH]; intros array endpos p array' p' -> Hfuel Hs Hperm;
    assert (Hp : p < length array)
      by (pose proof (sinking_at _ _ _ _ Hs) as Hat; apply lookup_lt_Some in Hat;
          now rewrite length_insert in Hat).
  - lia.
  - cbn [siftup_loop]. destruct (Nat.ltb_spec (2 * p + 1) (length array)) as [Hc|Hc].
    2:{ intros [= <- <-]. split; [|assumption]. apply sinking_leaf; [assumption|].
        now rewrite length_insert. }
    destruct (siftup_choice array p Hc) as (c & m & -> & Hchild & Hm & Hmin).
    rewrite Hm. destruct (child_parent _ _ Hchild) as [_ Hlt].
    assert (Hm' : <[p := v]> array !! c = Some m)
      by (rewrite list_lookup_insert_ne by lia; assumption).
    assert (Heq : <[c := v]> (<[p := m]> array)
                  = <[c := v]> (<[p := m]> (<[p := v]> array)))
      by now rewrite list_insert_insert_eq.
    apply IH; [now rewrite length_insert | lia | |]; rewrite Heq.
    + apply sinking_step; try assumption.
      intros c' y Hc' Hy. apply (Hmin c' y Hc').
      destruct (child_parent _ _ Hc') as [_ Hlt'].
      rewrite list_lookup_insert_ne in Hy by lia. assumption.
    + etransitivity; [|exact Hperm].
      apply exchange_perm; [assumption | apply (sinking_at _ _ _ _ Hs)].
Qed.

(** [_siftup(array, s)] puts in order from [s] an array in order from
    [s + 1]. *)
Lemma siftup_spec (array : list Tank) (s : nat) :
  heap_from (S s) array ->
  heap_from s (_siftup by_kills array s) /\ Permutation (_siftup by_kills array s) array.
Proof.
  intros Hheap. unfold _siftup.
  destruct (array !! s) as [v|] eqn:Hv.
  2:{ split; [|reflexivity]. intros i c x y Hsi Hic Hx.
      apply lookup_ge_None in Hv. apply lookup_lt_Some in Hx. lia. }
  destruct (siftup_loop by_kills (length array) array (length array) s) as [array' p'] eqn:Hloop.
  assert (Hid : <[s := v]> array = array) by now apply list_insert_id.
  destruct (siftup_loop_spec s v array (length array) array (length array) s array' p')
    as [Hrise Hperm]; [reflexivity | lia | | now rewrite Hid | assumption |].
  { rewrite Hid. split; [constructor | assumption | | congruence].
    intros i c x y Hsi Hic Hip _. apply Hheap; [lia | assumption]. }
  unfold _siftdown. rewrite (rising_at _ _ _ _ Hrise).
  apply siftdown_loop_spec; [lia | |]; now rewrite list_insert_insert_eq.
Qed.

Lemma heap_from_half (array : list Tank) (k : nat) :
  length array / 2 <= k -> heap_from k array.
Proof.
  intros Hk i c x y Hki Hic _ Hy. apply lookup_lt_Some in Hy.
  pose proof (half_spec (length array)). destruct Hic; lia.
Qed.

Lemma fold_siftup_spec (k : nat) :
  forall array,
    heap_from k array ->
    heap_from 0 (fold_left (_siftup by_kills) (rev (seq 0 k)) array)
    /\ Permutation (fold_left (_siftup by_kills) (rev (seq 0 k)) array) array.
Proof.
  induction k as [|k IH]; intros array Hheap; [now split|].
  rewrite seq_S, rev_app_distr. simpl.
  destruct (siftup_spec array k Hheap) as [Hheap' Hperm].
  destruct (IH _ Hheap') as [Hheap'' Hperm'].
  split; [assumption | now transitivity (_siftup by_kills array k)].
Qed.

Lemma heapify_spec (array : list Tank) :
  heap_from 0 (heapify by_kills array) /\ Permutation (heapify by_kills array) array.
Proof. apply fold_siftup_spec, heap_from_half. lia. Qed.

(** In a heap in order from 0 no element is smaller than the first. *)
Lemma heap_first_least (array : list Tank) (first : Tank) :
  heap_from 0 array -> array !! 0 = Some first ->
  forall y, In y array -> (kills first <= kills y)%Z.
Proof.
  intros Hheap Hfirst y Hy. apply list_elem_of_In, list_elem_of_lookup in Hy as [k Hk].
  revert y Hk. induction k as [k IH] using lt_wf_ind. intros y Hk.
  destruct k as [|k]; [assert (y = first) by congruence; subst; lia|].
  pose proof (parent_child (S k) ltac:(lia)) as Hchild.
  destruct (child_parent _ _ Hchild) as [_ Hlt].
  destruct (lookup_lt_is_Some_2 array ((S k - 1) / 2)) as [z Hz].
  { apply lookup_lt_Some in Hk. lia. }
  pose proof (IH _ Hlt z Hz). pose proof (Hheap _ _ z y ltac:(lia) Hchild Hz Hk). lia.
Qed.

(** [heappushpop] keeps the heap in order and its length, and lets go of
    an element that no element it keeps is smaller than; what bounds the
    heap from below still does. *)
Lemma heappushpop_spec (array : list Tank) (item : Tank) :
  heap_from 0 array ->
  exists gone,
    heap_from 0 (heappushpop by_kills array item)
    /\ Permutation (heappushpop by_kills array item ++ [gone]) (array ++ [item])
    /\ (forall y, In y (heappushpop by_kills array item) -> (kills gone <= kills y)%Z)
    /\ (forall d, (forall y, In y array -> (kills d <= kills y)%Z) ->
        forall y, In y (heappushpop by_kills array item) -> (kills d <= kills y)%Z).
Proof.
  intros Hheap. destruct array as [|first array]; simpl.
  - exists item. repeat split; [assumption | reflexivity | intros y [] | intros d _ y []].
  - pose proof (heap_first_least _ first Hheap eq_refl) as Hleast.
    rewrite by_kills_lt. destruct (Z.ltb_spec (kills first) (kills item)) as [Hlt|Hge].
    + destruct (siftup_spec (item :: array) 0) as [Hheap' Hperm].
      { intros i c x y Hi Hic Hx Hy. destruct (child_parent _ _ Hic) as [_ Hlt'].
        destruct i as [|i]; [lia|]. destruct c as [|c]; [lia|].
        apply (Hheap (S i) (S c)); [lia | assumption | exact Hx | exact Hy]. }
      exists first. repeat split; [assumption | | |].
      * rewrite Hperm. simpl.
        etransitivity; [apply perm_skip; symmetry; apply Permutation_cons_append|].
        etransitivity; [apply perm_swap|]. apply perm_skip, Permutation_cons_append.
      * intros y Hy. apply (Permutation_in _ Hperm) in Hy as [<- | Hy]; [lia|].
        apply Hleast. now right.
      * intros d Hd y Hy. apply (Permutation_in _ Hperm) in Hy as [<- | Hy].
        -- pose proof (Hd first (or_introl eq_refl)). lia.
        -- apply Hd. now right.
    + exists item. repeat split; [assumption | reflexivity | |].
      * intros y Hy. pose proof (Hleast y Hy). lia.
      * intros d Hd y Hy. now apply Hd.
Qed.

(** The elements [heappushpop] lets go of while the rest of the array is
    scanned: none of them is greater than an element of the heap. *)
Lemma fold_heappushpop_spec (items : list Tank) :
  forall array gone,
    heap_from 0 array ->
    (forall d y, In d gone -> In y array -> (kills d <= kills y)%Z) ->
    exists gone',
      heap_from 0 (fold_left (heappushpop by_kills) items array)
      /\ Permutation (fold_left (heappushpop by_kills) items array ++ gone')
                     (array ++ gone ++ items)
      /\ (forall d y, In d gone' -> In y (fold_left (heappushpop by_kills) items array) ->
          (kills d <= kills y)%Z)
      /\ length (fold_left (heappushpop by_kills) items array) = length array.
Proof.
  induction items as [|x items IH]; intros array gone Hheap Hgone; simpl.
  - exists gone. rewrite app_nil_r.
    repeat split; [assumption | reflexivity | assumption].
  - destruct (heappushpop_spec array x Hheap) as (g & Hheap' & Hperm & Hg & Hbound).
    destruct (IH (heappushpop by_kills array x) (g :: gone) Hheap')
      as (gone' & H1 & H2 & H3 & H4).
    { intros d y [<- | Hd] Hy; [now apply Hg|].
      apply (Hbound d); [|assumption]. intros z Hz. now apply Hgone. }
    exists gone'. repeat split; [assumption | | assumption |].
    2:{ rewrite H4. apply Permutation_length in Hperm.
        rewrite !length_app in Hperm. simpl in Hperm. lia. }
    rewrite H2. change ((g :: gone) ++ items) with ([g] ++ gone ++ items).
    rewrite app_assoc, Hperm, <- app_assoc. apply Permutation_app_head. simpl.
    apply Permutation_middle.
Qed.

(** [Array.prototype.sort] *)
Lemma sort_insert_perm (x : Tank) (l : list Tank) :
  Permutation (sort_insert by_kills x l) (x :: l).
Proof.
  induction l as [|y l IH]; simpl; [reflexivity|].
  destruct (by_kills x y <=? 0)%Z; [reflexivity|].
  etransitivity; [apply perm_skip, IH | apply perm_swap].
Qed.

Lemma js_sort_perm (l : list Tank) : Permutation (js_sort by_kills l) l.
Proof.
  induction l as [|x l IH]; simpl; [reflexivity|].
  etransitivity; [apply sort_insert_perm | now apply perm_skip].
Qed.

Lemma sort_insert_sorted (x : Tank) (l : list Tank) :
  StronglySorted (fun a b => at_least b a) l ->
  StronglySorted (fun a b => at_least b a) (sort_insert by_kills x l).
Proof.
  induction l as [|y l IH]; intros Hs; simpl.
  - repeat constructor.
  - apply StronglySorted_inv in Hs as [Hl Hy].
    destruct (Z.leb_spec (by_kills x y) 0) as [Hc|Hc]; unfold by_kills in Hc.
    + constructor; [now constructor|].
      constructor; [unfold at_least; lia|].
      eapply Forall_impl; [exact Hy|]. unfold at_least. intros z Hz. lia.
    + constructor; [now apply IH|].
      apply List.Forall_forall. intros z Hz.
      apply (Permutation_in _ (sort_insert_perm x l)) in Hz.
      destruct Hz as [<- | Hz]; [unfold at_least; lia|].
      rewrite List.Forall_forall in Hy. now apply Hy.
Qed.

Lemma js_sort_sorted (l : list Tank) :
  StronglySorted (fun a b => at_least b a) (js_sort by_kills l).
Proof.
  induction l as [|x l IH]; simpl; [constructor | now apply sort_insert_sorted].
Qed.

Lemma sorted_snoc (l : list Tank) (x : Tank) :
  StronglySorted at_least l -> (forall y, In y l -> at_least y x) ->
  StronglySorted at_least (l ++ [x]).
Proof.
  induction 1 as [|y l Hl IH Hy]; intros Hx; simpl; [repeat constructor|].
  constructor; [apply IH; intros z Hz; apply Hx; now right|].
  apply Forall_app. split; [assumption|].
  constructor; [apply Hx; now left | constructor].
Qed.

Lemma rev_sorted (l : list Tank) :
  StronglySorted (fun a b => at_least b a) l -> StronglySorted at_least (rev l).
Proof.
  induction 1 as [|x l Hl IH Hx]; simpl; [constructor|].
  apply sorted_snoc; [assumption|].
  intros y Hy. apply in_rev in Hy. rewrite List.Forall_forall in Hx. now apply Hx.
Qed.

(** [nlargest] on tanks compared by kills: min(n, length) tanks, none of
    the others having more kills than one of them, most kills first. *)
Lemma nlargest_spec (tanks : list Tank) (n : nat) :
  exists rest,
    length (nlargest tanks n by_kills) = Nat.min n (length tanks)
    /\ Permutation tanks (nlargest tanks n by_kills ++ rest)
    /\ (forall t u, In t (nlargest tanks n by_kills) -> In u rest -> (kills u <= kills t)%Z)
    /\ StronglySorted at_least (nlargest tanks n by_kills).
Proof.
  unfold nlargest. destruct (take n tanks) as [|t result] eqn:Htake.
  - exists tanks. repeat split; [|reflexivity | intros t u [] | constructor].
    apply (f_equal length) in Htake. rewrite length_take in Htake. simpl in *. lia.
  - rewrite <- Htake.
    destruct (heapify_spec (take n tanks)) as [Hheap Hperm].
    destruct (fold_heappushpop_spec (drop n tanks) _ [] Hheap)
      as (rest & Hheap' & Hperm' & Hrest & Hlen); [intros d y []|].
    set (array := fold_left (heappushpop by_kills) (drop n tanks) (heapify by_kills (take n tanks))) in *.
    assert (Htop : Permutation (rev (js_sort by_kills array)) array).
    { etransitivity; [symmetry; apply Permutation_rev | apply js_sort_perm]. }
    exists rest. repeat split.
    + rewrite (Permutation_length Htop), Hlen, (Permutation_length Hperm).
      apply length_take.
    + rewrite Htop, Hperm'. simpl. rewrite Hperm. now rewrite take_drop.
    + intros x u Hx Hu. apply (Hrest u x Hu). now apply (Permutation_in _ Htop).
    + apply rev_sorted, js_sort_sorted.
Qed.

Section Bounds.
Context {A : Type} (cmp : A -> A -> Z).

(** The rounds given to the loops are enough: more of them change
    nothing. *)
Lemma siftdown_loop_rounds (startpos : nat) (newitem : A) :
  forall fuel fuel' array pos,
    pos <= fuel -> pos <= fuel' ->
    siftdown_loop cmp fuel array startpos pos newitem
    = siftdown_loop cmp fuel' array startpos pos newitem.
Proof.
  induction fuel as [|fuel IH]; intros [|fuel'] array pos H1 H2; cbn [siftdown_loop];
    try reflexivity.
  - destruct (Nat.ltb_spec startpos pos); [lia | reflexivity].
  - destruct (Nat.ltb_spec startpos pos); [lia | reflexivity].
  - destruct (Nat.ltb_spec startpos pos); [|reflexivity].
    destruct (array !! ((pos - 1) / 2)); [|reflexivity].
    destruct (cmp newitem a <? 0)%Z; [|reflexivity].
    pose proof (half_spec (pos - 1)). apply IH; lia.
Qed.

Lemma siftup_loop_rounds (endpos : nat) :
  forall fuel fuel' array pos,
    endpos <= fuel + pos -> endpos <= fuel' + pos ->
    siftup_loop cmp fuel array endpos pos = siftup_loop cmp fuel' array endpos pos.
Proof.
  induction fuel as [|fuel IH]; intros [|fuel'] array pos H1 H2; cbn [siftup_loop];
    try reflexivity.
  - destruct (Nat.ltb_spec (2 * pos + 1) endpos); [lia | reflexivity].
  - destruct (Nat.ltb_spec (2 * pos + 1) endpos); [lia | reflexivity].
  - destruct (Nat.ltb_spec (2 * pos + 1) endpos); [|reflexivity].
    match goal with |- match array !! ?c with _ => _ end = _ =>
      assert (Hc : pos < c) by
        (destruct (array !! (2 * pos + 1)), (array !! (2 * pos + 1 + 1));
         try destruct (_ && _); lia);
      destruct (array !! c); [|reflexivity]; apply IH; lia
    end.
Qed.

End Bounds.

(** *** [updateScoreboard] *)

(** C2, as the code has it: the refresh stores min(session count,
    configured length) entries, hence as many as there are sessions when
    the configured length is not smaller; they are the (name, kills) pairs
    of tanks [top] such that the tanks of the sessions are [top] and a rest
    none of which has more kills than any of [top]; [top] is in descending
    order of kills. *)
Theorem updateScoreboard_top_k `{Externals} (s : Server) (tanks : list Tank) :
  mapM (tank_of (heap s)) (currentClientDatas s) = Some tanks ->
  exists s' top rest,
    updateScoreboard s = Done (s', [])
    /\ scoreboardList s'
       = map (fun t => {| entry_screenName := tank_screenName t; entry_kills := kills t |}) top
    /\ length (scoreboardList s')
       = Nat.min (length (currentClientDatas s)) (scoreBoardLength config)
    /\ (length (currentClientDatas s) <= scoreBoardLength config ->
        length (scoreboardList s') = length (currentClientDatas s))
    /\ Permutation tanks (top ++ rest)
    /\ (forall t u, In t top -> In u rest -> (kills u <= kills t)%Z)
    /\ StronglySorted (fun a b => (kills b <= kills a)%Z) top.
Proof.
  intros Htanks. unfold updateScoreboard. rewrite Htanks.
  set (K := Nat.min (length (currentClientDatas s)) (scoreBoardLength config)).
  assert (Hlen : length tanks = length (currentClientDatas s)).
  { apply mapM_Some in Htanks. symmetry. eapply Forall2_length, Htanks. }
  destruct (nlargest_spec tanks K) as (rest & Hcount & Hperm & Htop & Hsorted).
  assert (Hcount' : length (map entry_of (nlargest tanks K by_kills)) = K).
  { rewrite length_map, Hcount, Hlen. subst K. lia. }
  exists (set_scoreboardList (map entry_of (nlargest tanks K by_kills)) s),
         (nlargest tanks K by_kills), rest.
  split; [reflexivity|].
  split; [reflexivity|].
  split; [exact Hcount'|].
  split; [intros Hle; simpl; rewrite Hcount'; subst K; lia|].
  split; [exact Hperm|].
  split; [exact Htop | exact Hsorted].
Qed.

Lemma updateScoreboard_top_k_witness :
  mapM (tank_of (heap sample_five)) (currentClientDatas sample_five)
  = Some (map (fun c => tank c)
              [sample_player "p1" 5; sample_player "p2" 3; sample_player "p3" 9;
               sample_player "p4" 5; sample_player "p5" 1])
  /\ exists s' top rest,
       @updateScoreboard threePlaces sample_five = Done (s', [])
       /\ scoreboardList s'
          = map (fun t => {| entry_screenName := tank_screenName t; entry_kills := kills t |}) top
       /\ length (scoreboardList s') = 3
       /\ Permutation (map (fun c => tank c)
                           [sample_player "p1" 5; sample_player "p2" 3; sample_player "p3" 9;
                            sample_player "p4" 5; sample_player "p5" 1])
                      (top ++ rest)
       /\ (forall t u, In t top -> In u rest -> (kills u <= kills t)%Z)
       /\ StronglySorted (fun a b => (kills b <= kills a)%Z) top.
Proof.
  split; [vm_compute; reflexivity|].
  destruct (@updateScoreboard_top_k threePlaces sample_five
              (map (fun c => tank c)
                   [sample_player "p1" 5; sample_player "p2" 3; sample_player "p3" 9;
                    sample_player "p4" 5; sample_player "p5" 1]))
    as (s' & top & rest & Hrun & Hboard & Hlen & _ & Hperm & Htop & Hsorted).
  { vm_compute; reflexivity. }
  exists s', top, rest. repeat split; assumption.
Defined.

(** Against C2, "ties broken by input order": with kill counts 5, 3, 9, 5,
    1 and three places, p1 and p4 both have 5 kills and p1 comes first in
    [currentClientDatas], but the scoreboard lists p4 before p1. *)
Lemma scoreboard_ties_against_session_order :
  let tanks := map (fun c => tank c)
                   [sample_player "p1" 5; sample_player "p2" 3; sample_player "p3" 9;
                    sample_player "p4" 5; sample_player "p5" 1] in
  let top := map (fun c => tank c)
                 [sample_player "p3" 9; sample_player "p4" 5; sample_player "p1" 5] in
  currentClientDatas sample_five = ["p1"; "p2"; "p3"; "p4"; "p5"]
  /\ mapM (tank_of (heap sample_five)) (currentClientDatas sample_five) = Some tanks
  /\ @updateScoreboard threePlaces sample_five
     = Done (set_scoreboardList
               [ {| entry_screenName := "p3"; entry_kills := 9 |};
                 {| entry_screenName := "p4"; entry_kills := 5 |};
                 {| entry_screenName := "p1"; entry_kills := 5 |} ] sample_five, [])
  /\ nlargest tanks 3 by_kills = top
  /\ ~ ties_in_input_order tanks top.
Proof.
  cbv zeta.
  split; [reflexivity|].
  split; [vm_compute; reflexivity|].
  split; [vm_compute; reflexivity|].
  split; [vm_compute; reflexivity|].
  intros Hties. destruct (Hties 5%Z) as [later Hlater].
  vm_compute in Hlater. discriminate Hlater.
Qed.

(** Section 8: kill counts 5, 3, 9, 1 and K = 2 give 9 and 5. *)
Example nlargest_of_four :
  map kills
      (nlargest (map (fun c => tank c)
                     [sample_player "p1" 5; sample_player "p2" 3;
                      sample_player "p3" 9; sample_player "p5" 1])
                2 by_kills)
  = [9%Z; 5%Z].
Proof. vm_compute; reflexivity. Qed.

(** Five tanks with the same kill count and five places: the scoreboard
    order is the one the heap leaves. *)
Example nlargest_of_five_equal :
  map tank_screenName
      (nlargest (map (fun c => tank c)
                     [sample_player "p1" 5; sample_player "p2" 5; sample_player "p3" 5;
                      sample_player "p4" 5; sample_player "p5" 5])
                5 by_kills)
  = ["p2"; "p4"; "p1"; "p5"; "p3"].
Proof. vm_compute; reflexivity. Qed.

(** ** Objects and [Object.assign] *)

Section ObjectFacts.
Context {V : Type}.
Implicit Types (o : obj V) (k : string) (v : V).




Lemma obj_replace_get k v o o' :
  obj_replace k v o = Some o' -> obj_get k o' = Some v.
Proof.
  revert o'; induction o as [|[k' v'] o IH]; simpl; intros o'; [discriminate|].
  destruct (String.eqb k k') eqn:Hk.
  - intros [= <-]. unfold obj_get. simpl. now rewrite String.eqb_refl.
  - destruct (obj_replace k v o) as [o''|]; simpl; [|discriminate].
    intros [= <-]. unfold obj_get. simpl. rewrite Hk. now apply IH.
Qed.

Lemma obj_replace_not_found k v o :
  obj_replace k v o = None -> ~ In k (obj_keys o).
Proof.
  induction o as [|[k' v'] o IH]; simpl; [tauto|].
  destruct (String.eqb_spec k k') as [->|Hne]; [discriminate|].
  destruct (obj_replace k v o); simpl; [discriminate|].
  intros _ [Heq | Hin]; [congruence | now apply IH].
Qed.

Lemma obj_get_app_fresh k v o :
  ~ In k (obj_keys o) -> obj_get k (o ++ [(k, v)]) = Some v.
Proof.
  induction o as [|[k' v'] o IH]; simpl; intros Hk.
  - unfold obj_get. simpl. now rewrite String.eqb_refl.
  - unfold obj_get. simpl.
    destruct (String.eqb_spec k k') as [->|Hne]; [tauto|].
    apply IH. tauto.
Qed.

(** The value read after [o[k] = v] is [v], wherever [k] sits in [o]. *)
Lemma obj_get_set k v o :
  array_index k = None -> obj_get k (obj_set k v o) = Some v.
Proof.
  intros Hi. unfold obj_set.
  destruct (obj_replace k v o) as [o'|] eqn:Hr.
  - now apply (obj_replace_get k v o).
  - rewrite Hi. apply obj_get_app_fresh. now apply (obj_replace_not_found k v).
Qed.
End ObjectFacts.






(** ** The broadcast *)

Section Broadcast.
Context `{Externals}.

Lemma clientUpdater_one_message (s : Server) (r : string) (e : Emit) :
  clientUpdater_one s r = Some e ->
  exists cd area,
    heap s !! r = Some cd
    /\ sockets s !! r = Some (emit_socket e)
    /\ emit_message e = GameObjectsUpdate (snapshot s cd area).
Proof.
  unfold clientUpdater_one. intros He.
  destruct (heap s !! r) as [cd|]; [|discriminate].
  destruct (getProp (player cd) "screenWidth") as [w|]; [|discriminate].
  destruct (getProp (player cd) "screenHeight") as [h|]; [|discriminate].
  destruct (sockets s !! r) as [sock|]; [|discriminate].
  injection He as <-. eexists cd, _. repeat split.
Qed.

Lemma clientUpdater_loop_emits (s : Server) (rs : list string) (out : list Emit) (e : Emit) :
  In e (snd (outcome_value (clientUpdater_loop s rs out))) ->
  In e out \/ exists r, In r rs /\ clientUpdater_one s r = Some e.
Proof.
  revert out; induction rs as [|r rs IH]; intros out; simpl; [tauto|].
  destruct (clientUpdater_one s r) as [e'|] eqn:Hone; simpl; [|tauto].
  intros Hin. apply IH in Hin as [Hin | (r' & Hr' & He)].
  - apply in_app_or in Hin as [Hin | [<- | []]]; [now left|].
    right. exists r. split; [now left | assumption].
  - right. exists r'. split; [now right | assumption].
Qed.

Lemma clientUpdater_loop_state (s : Server) (rs : list string) (out : list Emit) :
  fst (outcome_value (clientUpdater_loop s rs out)) = s.
Proof.
  revert out; induction rs as [|r rs IH]; intros out; simpl; [reflexivity|].
  destruct (clientUpdater_one s r); [apply IH | reflexivity].
Qed.

(** Whatever the visible objects are, the scoreboard of a message is
    the cached one: it is merged last. *)
Lemma snapshot_scoreboard (s : Server) (cd : ClientData) (area : QueryArea) :
  obj_get "scoreboard" (snapshot s cd area) = Some (FScoreboard (scoreboardList s)).
Proof.
  unfold snapshot, assign. cbn [fold_left fst snd].
  now apply obj_get_set.
Qed.
End Broadcast.




(** An array of visible objects would even precede the viewpoint: array
    indices are enumerated first. *)
Example array_payload_comes_first :
  obj_keys (assign [] [ [("perspective", 1)]; [("0", 2); ("1", 3)];
                        [("ammo", 4)]; [("scoreboard", 5)] ])
  = ["0"; "1"; "perspective"; "ammo"; "scoreboard"].
Proof. vm_compute; reflexivity. Qed.

(** ** Executions *)

Ltac break_match :=
  repeat match goal with
         | |- context [match ?x with _ => _ end] => destruct x eqn:?
         end.

Lemma insert_keeps_startPingTime
    (h : gmap string ClientData) (k : string) (cd cd' : ClientData) (x : string) :
  h !! k = Some cd ->
  startPingTime cd' = startPingTime cd ->
  startPingTime <$> (<[k := cd']> h) !! x = startPingTime <$> h !! x.
Proof.
  intros Hk Hsame. destruct (decide (k = x)) as [->|Hne].
  - rewrite lookup_insert_eq, Hk. simpl. now rewrite Hsame.
  - now rewrite lookup_insert_ne.
Qed.

Section Executions.
Context `{Externals}.

Lemma gameObjectUpdater_loop_effect (n : nat) (s : Server) :
  snd (outcome_value (gameObjectUpdater_loop n s)) = []
  /\ scoreboardList (fst (outcome_value (gameObjectUpdater_loop n s))) = scoreboardList s
  /\ (gameTick_keeps_startPingTime ->
      forall x, startPingTime <$> heap (fst (outcome_value (gameObjectUpdater_loop n s))) !! x
                = startPingTime <$> heap s !! x).
Proof.
  revert s; induction n as [|n IH]; intros s; simpl; [repeat split|].
  destruct (currentClientDatas s !! n) as [r|]; [|repeat split].
  destruct (IH (gameTick s r)) as (Hout & Hboard & Hping).
  split; [assumption|]. split.
  - rewrite Hboard. unfold gameTick.
    now destruct (gameLogicService_gameTick _ _ _ _ _) as [[h q] l].
  - intros Hkeep x. rewrite (Hping Hkeep x). unfold gameTick.
    destruct (gameLogicService_gameTick _ _ _ _ _) as [[h q] l] eqn:Htick.
    simpl. eapply Hkeep, Htick.
Qed.

(** A step other than a refresh leaves the cached scoreboard alone. *)
Lemma step_keeps_scoreboard (s : Server) (ev : Event) :
  is_refresh ev = false ->
  scoreboardList (fst (outcome_value (step s ev))) = scoreboardList s.
Proof.
  intros Hev. destruct ev; simpl.
  - reflexivity.
  - unfold on_init. break_match; reflexivity.
  - unfold on_welcome_received. break_match; reflexivity.
  - unfold on_pongcheck. break_match; reflexivity.
  - unfold on_disconnect. break_match; reflexivity.
  - unfold on_client_checkin. break_match; reflexivity.
  - unfold on_windowResized. break_match; reflexivity.
  - destruct n as [|[|[|n]]]; simpl in *; try discriminate; try reflexivity.
    + apply gameObjectUpdater_loop_effect.
    + unfold clientUpdater. now rewrite clientUpdater_loop_state.
Qed.

(** Every world snapshot a step emits carries the scoreboard cached when
    the step begins. *)
Lemma step_emits_cached_scoreboard (s : Server) (ev : Event) (e : Emit) (m : obj field) :
  In e (snd (outcome_value (step s ev))) ->
  emit_message e = GameObjectsUpdate m ->
  obj_get "scoreboard" m = Some (FScoreboard (scoreboardList s)).
Proof.
  intros Hin Hm. destruct ev; simpl in Hin.
  - destruct Hin.
  - unfold on_init in Hin. revert Hin. break_match; simpl; intros Hin;
      try destruct Hin as [<- | []]; try destruct Hin; discriminate.
  - unfold on_welcome_received in Hin. revert Hin. break_match; simpl; tauto.
  - unfold on_pongcheck in Hin. revert Hin. break_match; simpl; tauto.
  - unfold on_disconnect in Hin. revert Hin. break_match; simpl; tauto.
  - unfold on_client_checkin in Hin. revert Hin. break_match; simpl; tauto.
  - unfold on_windowResized in Hin. revert Hin. break_match; simpl; tauto.
  - destruct n as [|[|[|n]]]; simpl in Hin.
    + unfold gameObjectUpdater in Hin.
      rewrite (proj1 (gameObjectUpdater_loop_effect _ _)) in Hin. destruct Hin.
    + unfold clientUpdater in Hin.
      apply clientUpdater_loop_emits in Hin as [[] | (r & _ & Hone)].
      apply clientUpdater_one_message in Hone as (cd & area & _ & _ & Hmsg).
      rewrite Hmsg in Hm. injection Hm as <-. apply snapshot_scoreboard.
    + unfold updateScoreboard in Hin. revert Hin. break_match; simpl; tauto.
    + destruct Hin.
Qed.

(** No step of an execution emits [pingcheck]. *)
Lemma step_emits_no_pingcheck (s : Server) (ev : Event) (e : Emit) :
  In e (snd (outcome_value (step s ev))) -> emit_message e <> Pingcheck.
Proof.
  intros Hin. destruct ev; simpl in Hin.
  - destruct Hin.
  - unfold on_init in Hin. revert Hin. break_match; simpl; intros Hin;
      try destruct Hin as [<- | []]; try destruct Hin; discriminate.
  - unfold on_welcome_received in Hin. revert Hin. break_match; simpl; tauto.
  - unfold on_pongcheck in Hin. revert Hin. break_match; simpl; tauto.
  - unfold on_disconnect in Hin. revert Hin. break_match; simpl; tauto.
  - unfold on_client_checkin in Hin. revert Hin. break_match; simpl; tauto.
  - unfold on_windowResized in Hin. revert Hin. break_match; simpl; tauto.
  - destruct n as [|[|[|n]]]; simpl in Hin.
    + unfold gameObjectUpdater in Hin.
      rewrite (proj1 (gameObjectUpdater_loop_effect _ _)) in Hin. destruct Hin.
    + unfold clientUpdater in Hin.
      apply clientUpdater_loop_emits in Hin as [[] | (r & _ & Hone)].
      apply clientUpdater_one_message in Hone as (cd & area & _ & _ & Hmsg).
      rewrite Hmsg. discriminate.
    + unfold updateScoreboard in Hin. revert Hin. break_match; simpl; tauto.
    + destruct Hin.
Qed.

(** No step but the connection of the session itself changes the start
    time of its outstanding ping. *)
Lemma step_keeps_startPingTime (s : Server) (ev : Event) (x : string) :
  gameTick_keeps_startPingTime ->
  is_connection x ev = false ->
  startPingTime <$> heap (fst (outcome_value (step s ev))) !! x
  = startPingTime <$> heap s !! x.
Proof.
  intros Hkeep Hev. destruct ev; simpl.
  - simpl in Hev. apply String.eqb_neq in Hev. now rewrite lookup_insert_ne.
  - unfold on_init. break_match; simpl; try reflexivity.
    eapply insert_keeps_startPingTime; [eassumption | reflexivity].
  - unfold on_welcome_received. break_match; simpl; try reflexivity.
    eapply insert_keeps_startPingTime; [eassumption | reflexivity].
  - unfold on_pongcheck. break_match; simpl; try reflexivity.
    eapply insert_keeps_startPingTime; [eassumption | reflexivity].
  - unfold on_disconnect. break_match; reflexivity.
  - unfold on_client_checkin. break_match; simpl; try reflexivity.
    eapply insert_keeps_startPingTime; [eassumption | reflexivity].
  - unfold on_windowResized. break_match; simpl; try reflexivity.
    eapply insert_keeps_startPingTime; [eassumption | reflexivity].
  - destruct n as [|[|[|n]]]; simpl; try reflexivity.
    + now apply gameObjectUpdater_loop_effect.
    + unfold clientUpdater. now rewrite clientUpdater_loop_state.
    + unfold updateScoreboard. break_match; reflexivity.
Qed.
End Executions.

Lemma run_emits_cached_scoreboard `{Externals}
    (evs : list Event) (s : Server) (out : list Emit) :
  scoreboardList s = [] ->
  (forall e m, In e out -> emit_message e = GameObjectsUpdate m ->
               obj_get "scoreboard" m = Some (FScoreboard [])) ->
  forallb (fun ev => negb (is_refresh ev)) evs = true ->
  forall e m, In e (snd (outcome_value (run s out evs))) ->
              emit_message e = GameObjectsUpdate m ->
              obj_get "scoreboard" m = Some (FScoreboard []).
Proof.
  revert s out; induction evs as [|ev evs IH]; intros s out Hs Hout Hevs; simpl.
  - exact Hout.
  - simpl in Hevs. apply andb_true_iff in Hevs as [Hev Hevs].
    apply negb_true_iff in Hev.
    pose proof (step_keeps_scoreboard s ev Hev) as Hboard.
    pose proof (step_emits_cached_scoreboard s ev) as Hstep.
    rewrite Hs in Hboard, Hstep.
    assert (Hout' : forall o, (forall e, In e o -> In e (snd (outcome_value (step s ev)))) ->
              forall e m, In e (out ++ o) -> emit_message e = GameObjectsUpdate m ->
                          obj_get "scoreboard" m = Some (FScoreboard [])).
    { intros o Ho e m Hin Hm. apply in_app_or in Hin as [Hin | Hin].
      - now apply (Hout e m).
      - apply (Hstep e m); auto. }
    destruct (step s ev) as [[s' o]|[s' o]]; simpl in *.
    + apply IH; [exact Hboard | apply Hout'; auto | exact Hevs].
    + apply Hout'. auto.
Qed.

(** C10: in an execution from the initial state in which the timer of
    [updateScoreboard] has not fired, every [game_objects_update] message
    carries the empty list as its scoreboard. *)
Theorem scoreboard_empty_before_first_refresh `{Externals}
    (evs : list Event) (e : Emit) (m : obj field) :
  forallb (fun ev => negb (is_refresh ev)) evs = true ->
  In e (snd (outcome_value (run server_init [] evs))) ->
  emit_message e = GameObjectsUpdate m ->
  obj_get "scoreboard" m = Some (FScoreboard []).
Proof.
  intros Hevs. apply run_emits_cached_scoreboard; auto.
  intros e' m' [].
Qed.

Lemma scoreboard_empty_before_first_refresh_witness :
  let evs := [Connection "a"; OnInit "a" (VStr "bob"); OnWelcomeReceived "a" (sample_ack "a");
              Timer 0 0; Timer 1 0] in
  let m := [("perspective", FPerspective 100 100);
            ("objects", FVisible (VObj [("a", VStr "a"); ("a#0", VStr "a#0")]));
            ("walls", FVisible (VObj []));
            ("ammo", FAmmo 10 9);
            ("scoreboard", FScoreboard [])] in
  let e := {| emit_socket := "a"; emit_message := GameObjectsUpdate m |} in
  forallb (fun ev => negb (is_refresh ev)) evs = true
  /\ In e (snd (outcome_value (@run sampleExternals (@server_init sampleExternals) [] evs)))
  /\ obj_get "scoreboard" m = Some (FScoreboard []).
Proof.
  intros evs m e.
  assert (Hevs : forallb (fun ev => negb (is_refresh ev)) evs = true) by reflexivity.
  assert (Hin : In e (snd (outcome_value
                             (@run sampleExternals (@server_init sampleExternals) [] evs))))
    by (vm_compute; right; now left).
  split; [exact Hevs|]. split; [exact Hin|].
  exact (@scoreboard_empty_before_first_refresh sampleExternals evs e m Hevs Hin eq_refl).
Defined.

Lemma run_without_checkPing `{Externals}
    (evs : list Event) (s : Server) (out : list Emit) :
  gameTick_keeps_startPingTime ->
  (forall e, In e out -> emit_message e <> Pingcheck) ->
  (forall e, In e (snd (outcome_value (run s out evs))) -> emit_message e <> Pingcheck)
  /\ forall x, forallb (fun ev => negb (is_connection x ev)) evs = true ->
               startPingTime <$> heap (fst (outcome_value (run s out evs))) !! x
               = startPingTime <$> heap s !! x.
Proof.
  intros Hkeep. revert s out; induction evs as [|ev evs IH]; intros s out Hout; simpl.
  - split; [exact Hout | reflexivity].
  - pose proof (step_emits_no_pingcheck s ev) as Hemit.
    pose proof (fun x => step_keeps_startPingTime s ev x Hkeep) as Hping.
    assert (Hout' : forall o, (forall e, In e o -> In e (snd (outcome_value (step s ev)))) ->
              forall e, In e (out ++ o) -> emit_message e <> Pingcheck).
    { intros o Ho e Hin. apply in_app_or in Hin as [Hin | Hin]; auto. }
    destruct (step s ev) as [[s' o]|[s' o]]; simpl in *.
    + destruct (IH s' (out ++ o) (Hout' o (fun _ h => h))) as [Hno Hsame].
      split; [exact Hno|].
      intros x Hx. apply andb_true_iff in Hx as [Hx Hxs].
      apply negb_true_iff in Hx. rewrite (Hsame x Hxs). now apply Hping.
    + split; [apply Hout'; auto|].
      intros x Hx. apply andb_true_iff in Hx as [Hx Hxs].
      apply negb_true_iff in Hx. now apply Hping.
Qed.

(** C9: [checkPing] is not among the routines given to [setInterval], and
    in no execution, made of socket events and of firings of the three
    timers, is a [pingcheck] emitted or the start time of the outstanding
    ping of a session changed, the rule engine being one that leaves that
    time alone. *)
Theorem no_timer_runs_checkPing `{Externals} :
  gameTick_keeps_startPingTime ->
  map fst intervals = [GameObjectUpdater; ClientUpdater; UpdateScoreboard]
  /\ ~ In CheckPing (map fst intervals)
  /\ forall (s : Server) (evs : list Event),
       (forall e, In e (snd (outcome_value (run s [] evs))) -> emit_message e <> Pingcheck)
       /\ forall sid,
            forallb (fun ev => negb (is_connection sid ev)) evs = true ->
            startPingTime <$> heap (fst (outcome_value (run s [] evs))) !! sid
            = startPingTime <$> heap s !! sid.
Proof.
  intros Hkeep. split; [reflexivity|]. split.
  - simpl. intros [Hx | [Hx | [Hx | []]]]; discriminate.
  - intros s evs. apply run_without_checkPing; [assumption|]. intros e [].
Qed.

Lemma sample_gameTick_keeps_startPingTime :
  @gameTick_keeps_startPingTime sampleExternals.
Proof.
  intros h q l r sock h' q' l' x. simpl. unfold sample_gameTick.
  destruct (h !! r) as [cd|] eqn:Hr; intros [= <- <- <-]; [|reflexivity].
  eapply insert_keeps_startPingTime; [eassumption | reflexivity].
Qed.

Lemma no_timer_runs_checkPing_witness :
  @gameTick_keeps_startPingTime sampleExternals
  /\ ~ In CheckPing (map fst intervals)
  /\ startPingTime <$>
       heap (fst (outcome_value
                    (@run sampleExternals sample_active []
                          [Timer 0 10; Timer 1 20; Timer 2 30; OnPongcheck "a" 40])))
         !! "a"
     = startPingTime <$> heap sample_active !! "a".
Proof.
  split; [exact sample_gameTick_keeps_startPingTime|].
  destruct (@no_timer_runs_checkPing sampleExternals sample_gameTick_keeps_startPingTime)
    as (_ & Hnot & Hrun).
  split; [exact Hnot|].
  apply (proj2 (Hrun sample_active
                     [Timer 0 10; Timer 1 20; Timer 2 30; OnPongcheck "a" 40])).
  reflexivity.
Defined.

(** What [checkPing] would do if something called it. *)
Example checkPing_sets_the_start_time :
  let r := checkPing sample_active 42 in
  snd (outcome_value r) = [ {| emit_socket := "a"; emit_message := Pingcheck |} ]
  /\ startPingTime <$> heap (fst (outcome_value r)) !! "a" = Some (Some 42%Z)
  /\ startPingTime <$> heap sample_active !! "a" = Some None.
Proof. vm_compute. repeat split. Qed.

(** ** Sessions that never acknowledge the handshake *)

Section NeverAcknowledged.
Context `{Externals}.
Variable sid : string.

Lemma never_acknowledged_update (s : Server) (x : string) (cd cd' : ClientData) :
  never_acknowledged s sid -> heap s !! x = Some cd -> tank cd' = tank cd ->
  never_acknowledged (set_heap (<[x := cd']> (heap s)) s) sid.
Proof.
  intros [Hreg Hidx Hown Hoth] Hx Ht. split; simpl; try assumption.
  - intros c Hc. destruct (decide (x = sid)) as [->|Hne].
    + rewrite lookup_insert_eq in Hc. injection Hc as <-. rewrite Ht. now apply Hown.
    + rewrite lookup_insert_ne in Hc by assumption. now apply Hown.
  - intros y c Hc Hy. destruct (decide (x = y)) as [->|Hne].
    + rewrite lookup_insert_eq in Hc. injection Hc as <-. rewrite Ht. now apply (Hoth y cd).
    + rewrite lookup_insert_ne in Hc by assumption. now apply (Hoth y c).
Qed.

Lemma never_acknowledged_gameTick (s : Server) (r : string) :
  gameTick_spares sid -> never_acknowledged s sid -> In r (currentClientDatas s) ->
  never_acknowledged (gameTick s r) sid.
Proof.
  intros Hspare [Hreg Hidx Hown Hoth] Hr. unfold gameTick.
  destruct (gameLogicService_gameTick _ _ _ _ _) as [[h q] l] eqn:Htick.
  destruct (Hspare _ _ _ _ _ _ _ _ Htick Hr Hreg) as (Hsame & Hreg' & Hidx' & Hoth').
  split; simpl.
  - assumption.
  - now apply Hidx'.
  - intros cd Hcd. rewrite Hsame in Hcd. now apply Hown.
  - now apply Hoth'.
Qed.

Lemma never_acknowledged_gameObjectUpdater_loop (n : nat) (s : Server) :
  gameTick_spares sid -> never_acknowledged s sid ->
  never_acknowledged (fst (outcome_value (gameObjectUpdater_loop n s))) sid.
Proof.
  intros Hspare. revert s; induction n as [|n IH]; intros s Hna; simpl; [assumption|].
  destruct (currentClientDatas s !! n) as [r|] eqn:Hr; [|assumption].
  apply IH, never_acknowledged_gameTick; try assumption.
  eapply list_elem_of_In, list_elem_of_lookup_2, Hr.
Qed.

(** No event but its own acknowledgement registers or indexes the
    session. *)
Lemma never_acknowledged_step (s : Server) (ev : Event) :
  newClientData_is_fresh -> gameTick_spares sid ->
  never_acknowledged s sid -> is_ack sid ev = false ->
  never_acknowledged (fst (outcome_value (step s ev))) sid.
Proof.
  intros Hfresh Hspare Hna Hev.
  destruct ev as [x | x name | x d | x now | x | x d now | x d | n now]; simpl.
  - destruct Hna as [Hreg Hidx Hown Hoth]. split; simpl; try assumption.
    + intros c Hc. destruct (decide (x = sid)) as [->|Hne].
      * rewrite lookup_insert_eq in Hc. injection Hc as <-. apply Hfresh.
      * rewrite lookup_insert_ne in Hc by assumption. now apply Hown.
    + intros y c Hc Hy. destruct (decide (x = y)) as [->|Hne].
      * rewrite lookup_insert_eq in Hc. injection Hc as <-.
        now rewrite (proj1 (Hfresh y _)).
      * rewrite lookup_insert_ne in Hc by assumption. now apply (Hoth y c).
  - unfold on_init. destruct (heap s !! x) as [cd|] eqn:Hcd; [|assumption].
    destruct name; simpl; try assumption.
    now apply (never_acknowledged_update s x cd).
  - simpl in Hev. apply String.eqb_neq in Hev. unfold on_welcome_received.
    destruct (heap s !! x) as [cd|] eqn:Hcd; [|assumption].
    destruct (getProp d "player") as [p|]; [|assumption].
    destruct (getProp d "id") as [i|]; [|assumption].
    pose proof (never_acknowledged_update s x cd (set_player p cd) Hna Hcd eq_refl)
      as [_ _ Hown' Hoth'].
    destruct Hna as [Hreg Hidx Hown Hoth]. split; simpl.
    + intros Hin. apply in_app_or in Hin as [Hin | [Heq | []]]; [contradiction | congruence].
    + intros e He. unfold qt_put in He.
      apply in_app_or in He as [He | [<- | []]]; [now apply Hidx|].
      simpl. now apply (Hoth x cd).
    + exact Hown'.
    + exact Hoth'.
  - unfold on_pongcheck. destruct (heap s !! x) as [cd|] eqn:Hcd; [|assumption].
    now apply (never_acknowledged_update s x cd).
  - destruct (heap s !! x) as [cd|] eqn:Hcd.
    2:{ unfold on_disconnect. now rewrite Hcd. }
    assert (Hq : forall e, In e (quadtree (fst (outcome_value (on_disconnect s x)))) ->
                           In e (quadtree s)).
    { intros e He. now apply (disconnect_quadtree_In s x cd e Hcd) in He. }
    assert (Hl : forall r, In r (currentClientDatas (fst (outcome_value (on_disconnect s x)))) ->
                           In r (currentClientDatas s)).
    { intros r. unfold on_disconnect. rewrite Hcd.
      destruct (findIndex (currentClientDatas s) x); [destruct (nullish (player cd))|];
        simpl; try tauto; apply In_delete. }
    assert (Hh : heap (fst (outcome_value (on_disconnect s x))) = heap s).
    { unfold on_disconnect. rewrite Hcd.
      destruct (findIndex (currentClientDatas s) x); [destruct (nullish (player cd))|];
        reflexivity. }
    destruct Hna as [Hreg Hidx Hown Hoth]. split.
    + intros Hin. apply Hreg. now apply Hl.
    + intros e He. apply Hidx. now apply Hq.
    + rewrite Hh. exact Hown.
    + rewrite Hh. exact Hoth.
  - unfold on_client_checkin. destruct (heap s !! x) as [cd|] eqn:Hcd; [|assumption].
    destruct (setProp (player cd) "userInput" d); simpl; [|assumption].
    now apply (never_acknowledged_update s x cd).
  - unfold on_windowResized. destruct (heap s !! x) as [cd|] eqn:Hcd; [|assumption].
    destruct (getProp d "screenWidth") as [w|]; [|assumption].
    destruct (getProp d "screenHeight") as [h|]; [|assumption].
    destruct (setProp (player cd) "screenWidth" w) as [p1|]; [|assumption].
    destruct (setProp p1 "screenHeight" h) as [p2|]; simpl; [|assumption].
    now apply (never_acknowledged_update s x cd).
  - destruct n as [|[|[|n]]]; simpl; try assumption.
    + now apply never_acknowledged_gameObjectUpdater_loop.
    + unfold clientUpdater. now rewrite clientUpdater_loop_state.
    + unfold updateScoreboard.
      destruct (mapM (tank_of (heap s)) (currentClientDatas s)); simpl; [|assumption].
      destruct Hna as [Hreg Hidx Hown Hoth]. now split.
Qed.

Lemma never_acknowledged_states (evs : list Event) :
  newClientData_is_fresh -> gameTick_spares sid ->
  forall s,
    never_acknowledged s sid ->
    forallb (fun ev => negb (is_ack sid ev)) evs = true ->
    Forall (fun s' => never_acknowledged s' sid) (states s evs).
Proof.
  intros Hfresh Hspare. induction evs as [|ev evs IH]; intros s Hna Hevs; simpl.
  - constructor; [assumption | constructor].
  - simpl in Hevs. apply andb_true_iff in Hevs as [Hev Hevs].
    apply negb_true_iff in Hev.
    pose proof (never_acknowledged_step s ev Hfresh Hspare Hna Hev) as Hstep.
    constructor; [assumption|].
    destruct (step s ev) as [[s' o]|[s' o]]; simpl in Hstep.
    + now apply IH.
    + constructor; [assumption | constructor].
Qed.

Lemma never_acknowledged_PRE_ACTIVE (s : Server) (cd : ClientData) :
  never_acknowledged s sid -> heap s !! sid = Some cd -> PRE_ACTIVE s sid cd.
Proof.
  intros [Hreg Hidx Hown Hoth] Hcd. destruct (Hown cd Hcd) as [Hid Hbul].
  split; try assumption. intros e He. rewrite Hid. now apply Hidx.
Qed.

End NeverAcknowledged.

(** C7: in an execution from the initial state in which a session never
    acknowledges the handshake, whatever else happens (its own other
    events, the events of other sessions, the firings of the timers), at
    every point the session holds no slot of [currentClientDatas], no query
    returns an entry under the id of its tank, and its [disconnect] would
    leave the whole state, so [currentClientDatas] and the quadtree, as it
    is.  The ClientData constructor is one that gives the tank the id of
    the socket and no bullet, the rule engine one that works on the
    sessions of the array only, and the initial world has nothing under the
    id of the session. *)
Theorem unacknowledged_session_stays_out `{Externals} (sid : string) (evs : list Event) :
  newClientData_is_fresh ->
  gameTick_spares sid ->
  (forall e, In e (initializeGame []) -> qid e <> sid) ->
  forallb (fun ev => negb (is_ack sid ev)) evs = true ->
  Forall (fun s =>
            ~ In sid (currentClientDatas s)
            /\ (forall area e, In e (qt_get area (quadtree s)) -> qid e <> sid)
            /\ forall cd, heap s !! sid = Some cd ->
                 tank_id (tank cd) = sid
                 /\ PRE_ACTIVE s sid cd
                 /\ on_disconnect s sid = Done (s, []))
         (states server_init evs).
Proof.
  intros Hfresh Hspare Hinit Hevs.
  assert (Hna : never_acknowledged server_init sid).
  { split; simpl; try tauto.
    - intros cd Hcd. now rewrite lookup_empty in Hcd.
    - intros x cd Hcd. now rewrite lookup_empty in Hcd. }
  pose proof (never_acknowledged_states sid evs Hfresh Hspare server_init Hna Hevs) as Hall.
  eapply Forall_impl; [exact Hall|]. intros s Hs. simpl.
  split; [apply (unack_unregistered _ _ Hs)|].
  split.
  - intros area e He. apply (unack_unindexed _ _ Hs). eapply qt_get_In, He.
  - intros cd Hcd.
    pose proof (never_acknowledged_PRE_ACTIVE sid s cd Hs Hcd) as Hpre.
    split; [apply (unack_tank _ _ Hs cd Hcd)|]. split; [exact Hpre|].
    exact (proj1 (own_events_before_ack_change_nothing s sid cd [] Hpre eq_refl)).
Qed.

Lemma sample_newClientData_is_fresh : @newClientData_is_fresh sampleExternals.
Proof. intros sid spawn. split; reflexivity. Qed.

Lemma bullet_id_not_a (r t : string) : r +:+ "#" +:+ t <> "a".
Proof.
  destruct r as [|c [|c' r]]; cbv beta iota delta [String.append]; discriminate.
Qed.

Lemma sample_gameTick_spares : @gameTick_spares sampleExternals "a".
Proof.
  intros h q l r sock h' q' l'. simpl. unfold sample_gameTick.
  destruct (h !! r) as [cd|] eqn:Hr; intros [= <- <- <-] Hin Hnot; [|now repeat split].
  assert (Hne : r <> "a") by congruence.
  split; [now apply lookup_insert_ne|]. split; [assumption|]. split.
  - intros Hq e He. unfold qt_put in He.
    apply in_app_or in He as [He | [<- | []]]; [now apply Hq|].
    apply bullet_id_not_a.
  - intros Hoth x c Hc Hx. destruct (decide (r = x)) as [->|Hrx].
    + rewrite lookup_insert_eq in Hc. injection Hc as <-. simpl. now apply (Hoth x cd).
    + rewrite lookup_insert_ne in Hc by assumption. now apply (Hoth x c).
Qed.

Lemma unacknowledged_session_stays_out_witness :
  @newClientData_is_fresh sampleExternals
  /\ @gameTick_spares sampleExternals "a"
  /\ (forall e, In e (@initializeGame sampleExternals []) -> qid e <> "a")
  /\ forallb (fun ev => negb (is_ack "a" ev)) sample_unacknowledged = true
  /\ currentClientDatas (@state_after sampleExternals sample_unacknowledged) = ["b"]
  /\ map qid (quadtree (@state_after sampleExternals sample_unacknowledged))
     = ["b"; "b#0"; "b#1"]
  /\ Forall (fun s =>
               ~ In "a" (currentClientDatas s)
               /\ (forall area e, In e (qt_get area (quadtree s)) -> qid e <> "a")
               /\ forall cd, heap s !! "a" = Some cd ->
                    tank_id (tank cd) = "a"
                    /\ PRE_ACTIVE s "a" cd
                    /\ on_disconnect s "a" = Done (s, []))
            (@states sampleExternals (@server_init sampleExternals) sample_unacknowledged).
Proof.
  assert (Hinit : forall e, In e (@initializeGame sampleExternals []) -> qid e <> "a")
    by (intros e []).
  split; [exact sample_newClientData_is_fresh|].
  split; [exact sample_gameTick_spares|].
  split; [exact Hinit|].
  split; [reflexivity|].
  split; [vm_compute; reflexivity|].
  split; [vm_compute; reflexivity|].
  exact (@unacknowledged_session_stays_out sampleExternals "a" sample_unacknowledged
           sample_newClientData_is_fresh sample_gameTick_spares Hinit eq_refl).
Defined.

(** * Further properties of server.js *)

(** ** The broadcast loop *)







(** ** Reading and writing properties *)

Section ObjectUpdates.
Context {V : Type}.
Implicit Types (o : obj V) (k : string) (v : V).

Lemma obj_get_None k o : obj_get k o = None <-> ~ In k (obj_keys o).
Proof.
  unfold obj_get. induction o as [|[k' v'] o IH]; simpl; [tauto|].
  destruct (String.eqb_spec k k') as [->|Hne]; simpl.
  - split; [discriminate | tauto].
  - rewrite IH. split; [intros Hn [Heq | Hin]; congruence | tauto].
Qed.

Lemma obj_replace_keys k v o o' :
  obj_replace k v o = Some o' -> obj_keys o' = obj_keys o.
Proof.
  revert o'; induction o as [|[k' v'] o IH]; simpl; intros o'; [discriminate|].
  destruct (String.eqb_spec k k') as [->|Hne].
  - now intros [= <-].
  - destruct (obj_replace k v o) as [o''|]; simpl; [|discriminate].
    intros [= <-]. simpl. f_equal. now apply IH.
Qed.

Lemma obj_replace_get_ne k k' v o o' :
  k <> k' -> obj_replace k' v o = Some o' -> obj_get k o' = obj_get k o.
Proof.
  intros Hne. revert o'; induction o as [|[k1 v1] o IH]; simpl; intros o'; [discriminate|].
  destruct (String.eqb_spec k' k1) as [->|Hne1].
  - intros [= <-]. unfold obj_get. simpl.
    destruct (String.eqb_spec k k1); [contradiction | reflexivity].
  - destruct (obj_replace k' v o) as [o''|]; simpl; [|discriminate].
    intros [= <-]. unfold obj_get in *. simpl.
    destruct (String.eqb k k1); [reflexivity | now apply IH].
Qed.

Lemma obj_insert_index_get_ne n k k' v o :
  k <> k' -> obj_get k (obj_insert_index n k' v o) = obj_get k o.
Proof.
  intros Hne. induction o as [|[k1 v1] o IH]; simpl.
  - unfold obj_get. simpl. destruct (String.eqb_spec k k'); [contradiction | reflexivity].
  - assert (Hhere : obj_get k ((k', v) :: (k1, v1) :: o) = obj_get k ((k1, v1) :: o)).
    { unfold obj_get. simpl. destruct (String.eqb_spec k k'); [contradiction | reflexivity]. }
    destruct (array_index k1) as [m|]; [|exact Hhere].
    destruct (m <? n)%N; [|exact Hhere].
    unfold obj_get in *. simpl. destruct (String.eqb k k1); [reflexivity | exact IH].
Qed.

Lemma obj_get_app_ne k k' v o :
  k <> k' -> obj_get k (o ++ [(k', v)]) = obj_get k o.
Proof.
  intros Hne. unfold obj_get. induction o as [|[k1 v1] o IH]; simpl.
  - destruct (String.eqb_spec k k'); [contradiction | reflexivity].
  - destruct (String.eqb k k1); [reflexivity | exact IH].
Qed.

(** Writing one property leaves the others as they read. *)
Lemma obj_get_set_ne k k' v o :
  k <> k' -> obj_get k (obj_set k' v o) = obj_get k o.
Proof.
  intros Hne. unfold obj_set.
  destruct (obj_replace k' v o) as [o'|] eqn:Hr.
  - now apply (obj_replace_get_ne k k' v o).
  - destruct (array_index k').
    + now apply obj_insert_index_get_ne.
    + now apply obj_get_app_ne.
Qed.

Lemma obj_insert_index_keys n k v o :
  Permutation (obj_keys (obj_insert_index n k v o)) (k :: obj_keys o).
Proof.
  induction o as [|[k1 v1] o IH]; simpl; [reflexivity|].
  destruct (array_index k1) as [m|]; [|reflexivity].
  destruct (m <? n)%N; [|reflexivity].
  simpl. rewrite IH. apply perm_swap.
Qed.

(** An object never has two properties of one name. *)
Lemma obj_set_NoDup k v o :
  List.NoDup (obj_keys o) -> List.NoDup (obj_keys (obj_set k v o)).
Proof.
  intros Hnd. unfold obj_set.
  destruct (obj_replace k v o) as [o'|] eqn:Hr.
  - now rewrite (obj_replace_keys k v o o').
  - apply obj_replace_not_found in Hr.
    assert (Hcons : List.NoDup (k :: obj_keys o)) by now constructor.
    destruct (array_index k).
    + eapply Permutation_NoDup; [symmetry; apply obj_insert_index_keys | exact Hcons].
    + unfold obj_keys. rewrite map_app. simpl.
      eapply Permutation_NoDup; [apply Permutation_cons_append | exact Hcons].
Qed.

Lemma merge_NoDup (kvs o : obj V) :
  List.NoDup (obj_keys o) ->
  List.NoDup (obj_keys (fold_left (fun t kv => obj_set (fst kv) (snd kv) t) kvs o)).
Proof.
  revert o; induction kvs as [|[k v] kvs IH]; intros o Hnd; simpl; [assumption|].
  apply IH. now apply obj_set_NoDup.
Qed.

(** After a merge a property that is no array index reads as before when
    the source does not have it, and as one of the values the source gives
    it otherwise. *)
Lemma merge_get k (kvs o : obj V) :
  array_index k = None ->
  (~ In k (obj_keys kvs) ->
   obj_get k (fold_left (fun t kv => obj_set (fst kv) (snd kv) t) kvs o) = obj_get k o)
  /\ (In k (obj_keys kvs) ->
      exists v, In (k, v) kvs
                /\ obj_get k (fold_left (fun t kv => obj_set (fst kv) (snd kv) t) kvs o)
                   = Some v).
Proof.
  intros Hi. revert o; induction kvs as [|[k1 v1] kvs IH]; intros o; simpl.
  - split; [reflexivity | tauto].
  - destruct (IH (obj_set k1 v1 o)) as [Hout Hin]. split.
    + intros Hk. rewrite Hout by tauto. apply obj_get_set_ne. intros ->. tauto.
    + intros Hk. destruct (in_dec string_dec k (obj_keys kvs)) as [Hlater | Hnot].
      * destruct (Hin Hlater) as (v & Hv & Hget). exists v. split; [now right | exact Hget].
      * destruct Hk as [-> | Hk]; [|contradiction].
        exists v1. split; [now left|]. rewrite Hout by assumption.
        now apply obj_get_set.
Qed.
End ObjectUpdates.

(** X3: whatever [queryGameObjects] returns, a world snapshot has no two
    properties of one name, its ammo and its scoreboard are those of the
    server, and its perspective is the position of the session unless the
    visible objects have a property named perspective, which then takes its
    place. *)
Theorem snapshot_server_fields `{Externals}
    (s : Server) (cd : ClientData) (area : QueryArea) :
  List.NoDup (obj_keys (snapshot s cd area))
  /\ obj_get "ammo" (snapshot s cd area)
     = Some (FAmmo (tankAmmoCapacity config) (ammo (tank cd)))
  /\ obj_get "scoreboard" (snapshot s cd area) = Some (FScoreboard (scoreboardList s))
  /\ (~ In "perspective" (obj_keys (queryGameObjects (quadtree s) area)) ->
      obj_get "perspective" (snapshot s cd area)
      = Some (FPerspective (fst (position cd)) (snd (position cd))))
  /\ (In "perspective" (obj_keys (queryGameObjects (quadtree s) area)) ->
      exists v, In ("perspective", v) (queryGameObjects (quadtree s) area)
                /\ obj_get "perspective" (snapshot s cd area) = Some (FVisible v)).
Proof.
  set (payload := map (fun kv : string * val => (fst kv, FVisible (snd kv)))
                      (queryGameObjects (quadtree s) area)).
  set (p := FPerspective (fst (position cd)) (snd (position cd))).
  set (a := FAmmo (tankAmmoCapacity config) (ammo (tank cd))).
  set (c := FScoreboard (scoreboardList s)).
  set (merged := fold_left (fun t kv => obj_set (fst kv) (snd kv) t) payload
                           [("perspective", p)]).
  assert (Hsnap : snapshot s cd area = obj_set "scoreboard" c (obj_set "ammo" a merged))
    by reflexivity.
  assert (Hkeys : obj_keys payload = obj_keys (queryGameObjects (quadtree s) area)).
  { unfold payload, obj_keys. rewrite map_map. reflexivity. }
  destruct (merge_get "perspective" payload [("perspective", p)] eq_refl) as [Hout Hin].
  rewrite Hsnap. repeat split.
  - apply obj_set_NoDup, obj_set_NoDup, merge_NoDup. simpl.
    constructor; [tauto | constructor].
  - rewrite obj_get_set_ne by discriminate. now apply obj_get_set.
  - now apply obj_get_set.
  - intros Hk. rewrite !obj_get_set_ne by discriminate.
    fold merged in Hout. rewrite Hout; [reflexivity | now rewrite Hkeys].
  - intros Hk. rewrite <- Hkeys in Hk. destruct (Hin Hk) as (v & Hv & Hget).
    unfold payload in Hv. apply in_map_iff in Hv as ([k' v'] & Heq & Hv').
    simpl in Heq. injection Heq as -> <-.
    exists v'. split; [assumption|].
    rewrite !obj_get_set_ne by discriminate. exact Hget.
Qed.

(** ** The handshake acknowledgement and the socket map *)




Lemma findIndex_found (l : list string) (sid : string) :
  In sid l -> exists i, findIndex l sid = Some i /\ l !! i = Some sid.
Proof.
  induction l as [|r l IH]; simpl; [tauto|].
  destruct (String.eqb_spec r sid) as [->|Hne].
  - intros _. now exists 0.
  - intros [Heq | Hin]; [contradiction|].
    destruct (IH Hin) as (i & Hi & Hl). exists (S i). now rewrite Hi.
Qed.



(** ** The screen size and the input *)



(** X7: [client_checkin] stores the payload as the input of the player and
    the time as the heartbeat; the other properties of the player (the
    screen size among them), the rest of the session and the rest of the
    server stay as they were. *)
Theorem client_checkin_keeps_the_rest
    (s : Server) (sid : string) (cd : ClientData) (fields : obj val)
    (data : val) (now : Z) :
  heap s !! sid = Some cd ->
  player cd = VObj fields ->
  exists s' cd',
    on_client_checkin s sid data now = Done (s', [])
    /\ heap s' !! sid = Some cd'
    /\ getProp (player cd') "userInput" = Some data
    /\ lastHeartbeat cd' = Some now
    /\ (forall k, k <> "userInput" -> getProp (player cd') k = getProp (player cd) k)
    /\ screenName cd' = screenName cd
    /\ tank cd' = tank cd
    /\ position cd' = position cd
    /\ startPingTime cd' = startPingTime cd
    /\ (forall x, x <> sid -> heap s' !! x = heap s !! x)
    /\ currentClientDatas s' = currentClientDatas s
    /\ quadtree s' = quadtree s
    /\ sockets s' = sockets s
    /\ scoreboardList s' = scoreboardList s.
Proof.
  intros Hcd Hp. unfold on_client_checkin. rewrite Hcd, Hp. simpl.
  eexists _, _. split; [reflexivity|]. simpl.
  split; [apply lookup_insert_eq|]. simpl.
  split; [now rewrite obj_get_set|].
  split; [reflexivity|]. split.
  - intros k Hk. rewrite ?Hp. simpl. now rewrite obj_get_set_ne.
  - repeat split. intros x Hx. now apply lookup_insert_ne.
Qed.

Lemma client_checkin_keeps_the_rest_witness :
  heap sample_active !! "a" = Some (session_of sample_active "a")
  /\ player (session_of sample_active "a")
     = VObj [("screenWidth", VNum 800); ("screenHeight", VNum 600)]
  /\ exists s' cd',
       on_client_checkin sample_active "a" (VStr "left") 99 = Done (s', [])
       /\ heap s' !! "a" = Some cd'
       /\ getProp (player cd') "userInput" = Some (VStr "left")
       /\ getProp (player cd') "screenWidth" = Some (VNum 800).
Proof.
  split; [vm_compute; reflexivity|]. split; [vm_compute; reflexivity|].
  destruct (client_checkin_keeps_the_rest sample_active "a"
              (session_of sample_active "a")
              [("screenWidth", VNum 800); ("screenHeight", VNum 600)]
              (VStr "left") 99)
    as (s' & cd' & Hrun & Hcd' & Hin & _ & Hrest & _).
  { vm_compute; reflexivity. }
  { vm_compute; reflexivity. }
  exists s', cd'. repeat split; try assumption.
  rewrite Hrest by discriminate. vm_compute; reflexivity.
Defined.

(** ** Measuring the ping *)

Lemma set_startPingTime_twice (t : option Z) (o : option ClientData) :
  set_startPingTime t <$> (set_startPingTime t <$> o) = set_startPingTime t <$> o.
Proof. now destruct o. Qed.

Lemma checkPing_loop_effect (rs : list string) (s : Server) (out : list Emit) (now : Z) :
  (forall r, In r rs -> In r (currentClientDatas s) /\ is_Some (sockets s !! r)) ->
  exists s' new,
    checkPing_loop rs s out now = Done (s', out ++ new)
    /\ currentClientDatas s' = currentClientDatas s
    /\ sockets s' = sockets s
    /\ quadtree s' = quadtree s
    /\ scoreboardList s' = scoreboardList s
    /\ Forall2 (fun r e => sockets s !! r = Some (emit_socket e)
                           /\ emit_message e = Pingcheck) rs new
    /\ forall x, heap s' !! x
                 = if in_dec string_dec x rs
                   then set_startPingTime (Some now) <$> heap s !! x
                   else heap s !! x.
Proof.
  revert s out; induction rs as [|r rs IH]; intros s out Hrs; simpl.
  - exists s, []. rewrite app_nil_r. repeat split. constructor.
  - destruct (Hrs r (or_introl eq_refl)) as [Hin [sock Hsock]].
    destruct (findIndex_found _ _ Hin) as (i & Hi & Hl).
    unfold checkPing_one. rewrite Hi, Hl, Hsock.
    set (s1 := set_heap (alter (set_startPingTime (Some now)) r (heap s)) s).
    destruct (IH s1 (out ++ [ {| emit_socket := sock; emit_message := Pingcheck |} ]))
      as (s' & new & Hrun & Hreg & Hsocks & Hq & Hboard & Hall & Hheap).
    { intros r' Hr'. apply Hrs. now right. }
    exists s', ({| emit_socket := sock; emit_message := Pingcheck |} :: new).
    split; [rewrite Hrun, <- app_assoc; reflexivity|].
    repeat split; try assumption.
    + constructor; [now split | exact Hall].
    + intros x. rewrite Hheap. unfold s1. simpl. rewrite lookup_alter.
      destruct (string_dec r x) as [->|Hne].
      * rewrite decide_True by reflexivity.
        destruct (in_dec string_dec x rs); [apply set_startPingTime_twice | reflexivity].
      * rewrite decide_False by assumption.
        destruct (in_dec string_dec x rs); reflexivity.
Qed.

(** X8: when every registered session has a socket under its id,
    [checkPing] runs to its end, emits one [pingcheck] per slot on that
    socket, sets the start time of the registered sessions to the time of
    the call and touches nothing else; a [pongcheck] of one of them then
    stores the time elapsed since that call as its ping. *)
Theorem checkPing_then_pongcheck
    (s : Server) (sid : string) (cd : ClientData) (t0 t1 : Z) :
  (forall r, In r (currentClientDatas s) -> is_Some (sockets s !! r)) ->
  In sid (currentClientDatas s) ->
  heap s !! sid = Some cd ->
  exists s1 out,
    checkPing s t0 = Done (s1, out)
    /\ Forall2 (fun r e => sockets s !! r = Some (emit_socket e)
                           /\ emit_message e = Pingcheck)
               (currentClientDatas s) out
    /\ (forall x, heap s1 !! x
                  = if in_dec string_dec x (currentClientDatas s)
                    then set_startPingTime (Some t0) <$> heap s !! x
                    else heap s !! x)
    /\ currentClientDatas s1 = currentClientDatas s
    /\ sockets s1 = sockets s
    /\ quadtree s1 = quadtree s
    /\ exists s2,
         on_pongcheck s1 sid t1 = Done (s2, [])
         /\ ping <$> heap s2 !! sid = Some (Some (t1 - t0)%Z).
Proof.
  intros Hsocks Hin Hcd. unfold checkPing.
  destruct (checkPing_loop_effect (currentClientDatas s) s [] t0)
    as (s1 & out & Hrun & Hreg & Hsk & Hq & _ & Hall & Hheap).
  { intros r Hr. split; [assumption | now apply Hsocks]. }
  exists s1, out. split; [exact Hrun|]. repeat split; try assumption.
  unfold on_pongcheck. rewrite Hheap.
  destruct (in_dec string_dec sid (currentClientDatas s)); [|contradiction].
  rewrite Hcd. simpl. eexists. split; [reflexivity|]. simpl.
  now rewrite lookup_insert_eq.
Qed.

Lemma checkPing_then_pongcheck_witness :
  (forall r, In r (currentClientDatas sample_two) -> is_Some (sockets sample_two !! r))
  /\ In "b" (currentClientDatas sample_two)
  /\ heap sample_two !! "b" = Some (session_of sample_two "b")
  /\ exists s1 out s2,
       checkPing sample_two 1000 = Done (s1, out)
       /\ length out = 2
       /\ on_pongcheck s1 "b" 1042 = Done (s2, [])
       /\ ping <$> heap s2 !! "b" = Some (Some 42%Z).
Proof.
  assert (Hsocks : forall r, In r (currentClientDatas sample_two) ->
                             is_Some (sockets sample_two !! r)).
  { intros r Hr. vm_compute in Hr. destruct Hr as [<- | [<- | []]]; vm_compute; eauto. }
  assert (Hin : In "b" (currentClientDatas sample_two)) by (vm_compute; tauto).
  split; [exact Hsocks|]. split; [exact Hin|]. split; [vm_compute; reflexivity|].
  destruct (checkPing_then_pongcheck sample_two "b" (session_of sample_two "b") 1000 1042
              Hsocks Hin)
    as (s1 & out & Hrun & Hall & _ & _ & _ & _ & s2 & Hpong & Hping).
  { vm_compute; reflexivity. }
  exists s1, out, s2. repeat split; try assumption.
  apply Forall2_length in Hall. rewrite <- Hall. reflexivity.
Defined.

(** ** The socket map *)

Lemma gameObjectUpdater_loop_sockets `{Externals} (n : nat) (s : Server) :
  sockets (fst (outcome_value (gameObjectUpdater_loop n s))) = sockets s.
Proof.
  revert s; induction n as [|n IH]; intros s; simpl; [reflexivity|].
  destruct (currentClientDatas s !! n) as [r|]; [|reflexivity].
  rewrite IH. unfold gameTick.
  now destruct (gameLogicService_gameTick _ _ _ _ _) as [[h q] l].
Qed.

Lemma step_keeps_socket_entries `{Externals} (s : Server) (ev : Event) (k : string) :
  is_Some (sockets s !! k) ->
  is_Some (sockets (fst (outcome_value (step s ev))) !! k).
Proof.
  intros Hk. destruct ev; simpl.
  - exact Hk.
  - unfold on_init. break_match; exact Hk.
  - unfold on_welcome_received. break_match; simpl; try exact Hk.
    apply lookup_insert_is_Some.
    match goal with
    | |- ?i = k \/ _ => destruct (decide (i = k)); [now left | now right]
    end.
  - unfold on_pongcheck. break_match; exact Hk.
  - unfold on_disconnect. break_match; exact Hk.
  - unfold on_client_checkin. break_match; exact Hk.
  - unfold on_windowResized. break_match; exact Hk.
  - destruct n as [|[|[|n]]]; simpl; try exact Hk.
    + unfold gameObjectUpdater. now rewrite gameObjectUpdater_loop_sockets.
    + unfold clientUpdater. now rewrite clientUpdater_loop_state.
    + unfold updateScoreboard. break_match; exact Hk.
Qed.

(** X9: no callback of server.js ever removes an entry from [sockets]:
    through any execution, disconnections included, a key that has a socket
    keeps having one. *)
Theorem sockets_never_lose_an_entry `{Externals}
    (evs : list Event) (s : Server) (out : list Emit) (k : string) :
  is_Some (sockets s !! k) ->
  is_Some (sockets (fst (outcome_value (run s out evs))) !! k).
Proof.
  revert s out; induction evs as [|ev evs IH]; intros s out Hk; simpl; [exact Hk|].
  pose proof (step_keeps_socket_entries s ev k Hk) as Hstep.
  destruct (step s ev) as [[s' o]|[s' o]]; simpl in *; [now apply IH | exact Hstep].
Qed.

Lemma sockets_never_lose_an_entry_witness :
  is_Some (sockets sample_active !! "a")
  /\ currentClientDatas
       (fst (outcome_value (@run sampleExternals sample_active [] [OnDisconnect "a"; Timer 0 7])))
     = []
  /\ is_Some (sockets (fst (outcome_value
                              (@run sampleExternals sample_active []
                                    [OnDisconnect "a"; Timer 0 7]))) !! "a").
Proof.
  assert (Hk : is_Some (sockets sample_active !! "a")) by (vm_compute; eauto).
  split; [exact Hk|]. split; [vm_compute; reflexivity|].
  exact (@sockets_never_lose_an_entry sampleExternals [OnDisconnect "a"; Timer 0 7]
           sample_active [] "a" Hk).
Defined.

(** ** The world-advance loop *)

Lemma gameTick_registry `{Externals} (s : Server) (r : string) :
  exists h q l,
    gameLogicService_gameTick (heap s) (quadtree s) (currentClientDatas s) r (sockets s !! r)
    = (h, q, l)
    /\ heap (gameTick s r) = h
    /\ quadtree (gameTick s r) = q
    /\ currentClientDatas (gameTick s r) = l.
Proof.
  unfold gameTick.
  destruct (gameLogicService_gameTick _ _ _ _ _) as [[h q] l]. now exists h, q, l.
Qed.

Lemma gameObjectUpdater_loop_completes `{Externals} (n : nat) (s : Server) :
  gameTick_removes_at_most_one ->
  n <= length (currentClientDatas s) ->
  completes (gameObjectUpdater_loop n s) = true.
Proof.
  intros Hone. revert s; induction n as [|n IH]; intros s Hn; simpl; [reflexivity|].
  destruct (lookup_lt_is_Some_2 (currentClientDatas s) n Hn) as [r Hr]. rewrite Hr.
  apply IH.
  destruct (gameTick_registry s r) as (h & q & l & Htick & _ & _ & Hl).
  rewrite Hl. apply Hone in Htick. lia.
Qed.

(** X10: the backwards loop of [gameObjectUpdater] tolerates a rule engine
    whose tick takes at most one session out of the array: it then never
    reads an empty slot and runs to its end, emitting nothing itself. *)
Theorem gameObjectUpdater_tolerates_removal `{Externals} (s : Server) :
  gameTick_removes_at_most_one ->
  completes (gameObjectUpdater s) = true
  /\ snd (outcome_value (gameObjectUpdater s)) = []
  /\ sockets (fst (outcome_value (gameObjectUpdater s))) = sockets s
  /\ scoreboardList (fst (outcome_value (gameObjectUpdater s))) = scoreboardList s.
Proof.
  intros Hone. unfold gameObjectUpdater.
  split; [now apply gameObjectUpdater_loop_completes|].
  split; [apply gameObjectUpdater_loop_effect|].
  split; [apply gameObjectUpdater_loop_sockets | apply gameObjectUpdater_loop_effect].
Qed.

Lemma findIndex_Some (l : list string) (sid : string) (i : nat) :
  findIndex l sid = Some i -> l !! i = Some sid.
Proof.
  revert i; induction l as [|r l IH]; intros i; simpl; [discriminate|].
  destruct (String.eqb_spec r sid) as [->|Hne].
  - now intros [= <-].
  - destruct (findIndex l sid) as [j|]; simpl; [|discriminate].
    intros [= <-]. simpl. now apply IH.
Qed.

Lemma leaving_removes_at_most_one : @gameTick_removes_at_most_one leavingExternals.
Proof.
  intros h q l r sock h' q' l'. simpl. unfold leaving_gameTick.
  destruct (findIndex l r) as [i|] eqn:Hi; intros [= <- <- <-]; [|lia].
  apply findIndex_Some in Hi. rewrite length_delete by eauto. lia.
Qed.

Lemma gameObjectUpdater_tolerates_removal_witness :
  @gameTick_removes_at_most_one leavingExternals
  /\ @gameObjectUpdater leavingExternals sample_two
     = Done (set_currentClientDatas [] sample_two, []).
Proof.
  split; [exact leaving_removes_at_most_one|].
  pose proof (proj1 (@gameObjectUpdater_tolerates_removal leavingExternals sample_two
                       leaving_removes_at_most_one)) as Hdone.
  destruct (@gameObjectUpdater leavingExternals sample_two) as [[s' o]|[s' o]] eqn:Hrun;
    [|discriminate].
  rewrite <- Hrun. vm_compute; reflexivity.
Defined.

(** A tick that takes more than one session out of the array makes the
    loop read the id of [undefined]. *)
Example gameObjectUpdater_reads_empty_slot :
  currentClientDatas sample_two = ["a"; "b"]
  /\ completes (@gameObjectUpdater sweepingExternals sample_two) = false.
Proof. split; vm_compute; reflexivity. Qed.

Lemma gameObjectUpdater_loop_order `{Externals} (n : nat) (s : Server) :
  gameTick_keeps_registry ->
  n <= length (currentClientDatas s) ->
  gameObjectUpdater_loop n s
  = Done (fold_left gameTick (rev (take n (currentClientDatas s))) s, []).
Proof.
  intros Hkeep. revert s; induction n as [|n IH]; intros s Hn; simpl; [reflexivity|].
  destruct (lookup_lt_is_Some_2 (currentClientDatas s) n Hn) as [r Hr]. rewrite Hr.
  destruct (gameTick_registry s r) as (h & q & l & Htick & _ & _ & Hl).
  apply Hkeep in Htick. subst l.
  rewrite IH by (rewrite Hl; lia). rewrite Hl.
  rewrite (take_S_r _ _ _ Hr), rev_unit. reflexivity.
Qed.

(** X11: with a rule engine that leaves the array of sessions as it is,
    [gameObjectUpdater] ticks every slot exactly once, the last slot first;
    a session that holds two slots is advanced twice per tick. *)
Theorem gameObjectUpdater_ticks_back_to_front `{Externals} (s : Server) :
  gameTick_keeps_registry ->
  gameObjectUpdater s = Done (fold_left gameTick (rev (currentClientDatas s)) s, []).
Proof.
  intros Hkeep. unfold gameObjectUpdater.
  rewrite gameObjectUpdater_loop_order by (assumption || lia).
  now rewrite firstn_all.
Qed.

Lemma sample_gameTick_keeps_registry : @gameTick_keeps_registry sampleExternals.
Proof.
  intros h q l r sock h' q' l'. simpl. unfold sample_gameTick.
  destruct (h !! r); now intros [= <- <- <-].
Qed.

Lemma gameObjectUpdater_ticks_back_to_front_witness :
  @gameTick_keeps_registry sampleExternals
  /\ @gameObjectUpdater sampleExternals sample_two
     = Done (@gameTick sampleExternals (@gameTick sampleExternals sample_two "b") "a", []).
Proof.
  split; [exact sample_gameTick_keeps_registry|].
  exact (@gameObjectUpdater_ticks_back_to_front sampleExternals sample_two
           sample_gameTick_keeps_registry).
Defined.

(** ** Disconnection and the other sessions *)

Lemma findIndex_delete_others (l : list string) (sid : string) (i : nat) :
  findIndex l sid = Some i ->
  List.filter (other_than sid) (delete i l) = List.filter (other_than sid) l.
Proof.
  revert i; induction l as [|r l IH]; intros i; simpl; [discriminate|].
  unfold other_than at 2. destruct (String.eqb_spec r sid) as [->|Hne].
  - now intros [= <-].
  - destruct (findIndex l sid) as [j|]; simpl; [|discriminate].
    intros [= <-]. simpl. unfold other_than at 1.
    destruct (String.eqb_spec r sid); [contradiction|]. simpl. f_equal. now apply IH.
Qed.

(** X12: [disconnect] takes exactly one slot of the session out of
    [currentClientDatas] when it has one, leaves the slots of all other
    sessions in place and in order, and changes neither the ClientData
    objects nor [sockets] nor the cached scoreboard. *)
Theorem disconnect_keeps_other_slots (s : Server) (sid : string) (cd : ClientData) :
  heap s !! sid = Some cd ->
  List.filter (other_than sid) (currentClientDatas (fst (outcome_value (on_disconnect s sid))))
  = List.filter (other_than sid) (currentClientDatas s)
  /\ count_occ string_dec (currentClientDatas (fst (outcome_value (on_disconnect s sid)))) sid
     = Nat.pred (count_occ string_dec (currentClientDatas s) sid)
  /\ heap (fst (outcome_value (on_disconnect s sid))) = heap s
  /\ sockets (fst (outcome_value (on_disconnect s sid))) = sockets s
  /\ scoreboardList (fst (outcome_value (on_disconnect s sid))) = scoreboardList s.
Proof.
  intros Hcd. unfold on_disconnect. rewrite Hcd.
  destruct (findIndex (currentClientDatas s) sid) as [i|] eqn:Hi.
  - assert (Hboth : forall o : result,
              o = (if nullish (player cd)
                   then Throws (set_currentClientDatas (delete i (currentClientDatas s))
                                  (set_quadtree
                                     (qt_remove (Tank_forQuadtree (tank cd)) KeyId
                                        (fold_left (fun q b => qt_remove (Bullet_forQuadtree b) NoKey q)
                                                   (bullets (tank cd)) (quadtree s))) s), [])
                   else Done (set_currentClientDatas (delete i (currentClientDatas s))
                                (set_quadtree
                                   (qt_remove (Tank_forQuadtree (tank cd)) KeyId
                                      (fold_left (fun q b => qt_remove (Bullet_forQuadtree b) NoKey q)
                                                 (bullets (tank cd)) (quadtree s))) s), [])) ->
              currentClientDatas (fst (outcome_value o)) = delete i (currentClientDatas s)
              /\ heap (fst (outcome_value o)) = heap s
              /\ sockets (fst (outcome_value o)) = sockets s
              /\ scoreboardList (fst (outcome_value o)) = scoreboardList s).
    { intros o ->. destruct (nullish (player cd)); repeat split. }
    destruct (Hboth _ eq_refl) as (Hreg & Hheap & Hsock & Hboard).
    cbv zeta. rewrite Hreg, Hheap, Hsock, Hboard.
    repeat split.
    + now apply findIndex_delete_others.
    + now apply findIndex_delete_count.
  - simpl. repeat split.
    apply findIndex_None in Hi. apply (count_occ_not_In string_dec) in Hi.
    now rewrite Hi.
Qed.

Lemma disconnect_keeps_other_slots_witness :
  heap sample_two !! "a" = Some (session_of sample_two "a")
  /\ currentClientDatas sample_two = ["a"; "b"]
  /\ List.filter (other_than "a")
       (currentClientDatas (fst (outcome_value (on_disconnect sample_two "a"))))
     = ["b"].
Proof.
  split; [vm_compute; reflexivity|]. split; [vm_compute; reflexivity|].
  rewrite (proj1 (disconnect_keeps_other_slots sample_two "a" (session_of sample_two "a")
                    ltac:(vm_compute; reflexivity))).
  vm_compute; reflexivity.
Defined.

(** ** Slots refer to sessions *)

Lemma registry_ok_insert (s : Server) (k : string) (cd : ClientData) :
  registry_ok s -> registry_ok (set_heap (<[k := cd]> (heap s)) s).
Proof.
  intros Hok r Hr. simpl in *. apply lookup_insert_is_Some.
  destruct (decide (k = r)); [now left | right; split; [assumption | now apply Hok]].
Qed.

Lemma gameObjectUpdater_loop_registry_ok `{Externals} (n : nat) (s : Server) :
  gameTick_keeps_sessions ->
  registry_ok s ->
  registry_ok (fst (outcome_value (gameObjectUpdater_loop n s))).
Proof.
  intros Hkeep. revert s; induction n as [|n IH]; intros s Hok; simpl; [assumption|].
  destruct (currentClientDatas s !! n) as [r|]; [|assumption].
  apply IH. destruct (gameTick_registry s r) as (h & q & l & Htick & Hh & _ & Hl).
  intros x Hx. rewrite Hl in Hx. rewrite Hh.
  exact (Hkeep _ _ _ _ _ _ _ _ Htick Hok x Hx).
Qed.

Lemma step_keeps_registry_ok `{Externals} (s : Server) (ev : Event) :
  gameTick_keeps_sessions ->
  registry_ok s ->
  registry_ok (fst (outcome_value (step s ev))).
Proof.
  intros Hkeep Hok. destruct ev; simpl.
  - now apply registry_ok_insert.
  - unfold on_init. break_match; simpl; try assumption. now apply registry_ok_insert.
  - unfold on_welcome_received. break_match; simpl; try assumption.
    intros r Hr. simpl in *. apply lookup_insert_is_Some.
    destruct (decide (sid = r)); [now left | right; split; [assumption|]].
    apply in_app_or in Hr as [Hr | [Hr | []]]; [now apply Hok | contradiction].
  - unfold on_pongcheck. break_match; simpl; try assumption. now apply registry_ok_insert.
  - unfold on_disconnect. break_match; simpl; try assumption;
      intros r Hr; simpl in *; apply Hok; now apply In_delete in Hr.
  - unfold on_client_checkin. break_match; simpl; try assumption.
    now apply registry_ok_insert.
  - unfold on_windowResized. break_match; simpl; try assumption.
    now apply registry_ok_insert.
  - destruct n as [|[|[|n]]]; simpl; try assumption.
    + now apply gameObjectUpdater_loop_registry_ok.
    + unfold clientUpdater. now rewrite clientUpdater_loop_state.
    + unfold updateScoreboard. break_match; simpl; assumption.
Qed.

(** X13: in every state that an execution reaches from the initial one,
    each slot of [currentClientDatas] refers to a ClientData object, so that
    [updateScoreboard] reads the tank of every slot and runs to its end;
    the rule engine is one that keeps the array it is handed within the
    sessions that exist. *)
Theorem slots_refer_to_sessions `{Externals} (evs : list Event) :
  gameTick_keeps_sessions ->
  registry_ok (fst (outcome_value (run server_init [] evs)))
  /\ completes (updateScoreboard (fst (outcome_value (run server_init [] evs)))) = true.
Proof.
  intros Hkeep.
  assert (Hrun : forall evs0 s out, registry_ok s ->
                   registry_ok (fst (outcome_value (run s out evs0)))).
  { induction evs0 as [|ev evs0 IH]; intros s out Hok; simpl; [assumption|].
    pose proof (step_keeps_registry_ok s ev Hkeep Hok) as Hstep.
    destruct (step s ev) as [[s' o]|[s' o]]; simpl in *; [now apply IH | assumption]. }
  assert (Hok : registry_ok (fst (outcome_value (run server_init [] evs)))).
  { apply Hrun. intros r []. }
  split; [exact Hok|].
  unfold updateScoreboard.
  destruct (mapM _ _) as [tanks|] eqn:Hm; [reflexivity|].
  exfalso. apply eq_None_not_Some in Hm. apply Hm. apply mapM_is_Some.
  apply List.Forall_forall. intros r Hr. unfold tank_of. simpl.
  apply fmap_is_Some. now apply Hok.
Qed.

Lemma sample_gameTick_keeps_sessions : @gameTick_keeps_sessions sampleExternals.
Proof.
  intros h q l r sock h' q' l'. simpl. unfold sample_gameTick.
  destruct (h !! r) as [cd|] eqn:Hr; intros [= <- <- <-] Hok x Hx; [|now apply Hok].
  apply lookup_insert_is_Some.
  destruct (decide (r = x)); [now left | right; split; [assumption | now apply Hok]].
Qed.

Lemma slots_refer_to_sessions_witness :
  @gameTick_keeps_sessions sampleExternals
  /\ completes (@updateScoreboard sampleExternals
                  (@state_after sampleExternals
                     (sample_twice ++ [Timer 0 3; OnDisconnect "a"; Timer 0 4])))
     = true.
Proof.
  split; [exact sample_gameTick_keeps_sessions|].
  exact (proj2 (@slots_refer_to_sessions sampleExternals
                  (sample_twice ++ [Timer 0 3; OnDisconnect "a"; Timer 0 4])
                  sample_gameTick_keeps_sessions)).
Defined.

(** ** A handshake followed by a disconnection *)




(** ** What the other callbacks leave alone *)

(** X15: apart from the acknowledgement, the disconnection and the
    world-advance tick, no callback writes to [currentClientDatas], to the
    quadtree or to [sockets]: a connection, [init], [pongcheck],
    [client_checkin], [windowResized], a broadcast tick and a scoreboard
    refresh leave all three as they were, whether they throw or not. *)
Theorem other_callbacks_keep_world `{Externals} (s : Server) (ev : Event) :
  writes_world ev = false ->
  currentClientDatas (fst (outcome_value (step s ev))) = currentClientDatas s
  /\ quadtree (fst (outcome_value (step s ev))) = quadtree s
  /\ sockets (fst (outcome_value (step s ev))) = sockets s.
Proof.
  intros Hev. destruct ev; simpl in *; try discriminate.
  - repeat split.
  - unfold on_init. break_match; repeat split.
  - unfold on_pongcheck. break_match; repeat split.
  - unfold on_client_checkin. break_match; repeat split.
  - unfold on_windowResized. break_match; repeat split.
  - destruct n as [|[|[|n]]]; simpl in *; try discriminate; try (repeat split).
    + unfold clientUpdater. now rewrite clientUpdater_loop_state.
    + unfold clientUpdater. now rewrite clientUpdater_loop_state.
    + unfold clientUpdater. now rewrite clientUpdater_loop_state.
    + unfold updateScoreboard. break_match; reflexivity.
    + unfold updateScoreboard. break_match; reflexivity.
    + unfold updateScoreboard. break_match; reflexivity.
Qed.

Lemma other_callbacks_keep_world_witness :
  writes_world (OnClientCheckin "a" VNull 5) = false
  /\ completes (@step sampleExternals sample_connected (OnInit "a" VNull)) = false
  /\ currentClientDatas
       (fst (outcome_value (@step sampleExternals sample_active (OnClientCheckin "a" VNull 5))))
     = currentClientDatas sample_active.
Proof.
  split; [reflexivity|]. split; [vm_compute; reflexivity|].
  exact (proj1 (@other_callbacks_keep_world sampleExternals sample_active
                  (OnClientCheckin "a" VNull 5) eq_refl)).
Defined.
